(** * arcloud: the "cloud only" flag of an ArDrive CLI sync ledger

    A shallow embedding of [arcloud.py].  The SQLite table [sync] is a list
    of rows in the order in which the engine scans the table; every SQL
    statement of the script is a function on that list.  Python exceptions
    are values of the [result] type, and the two unbounded control
    structures of the script (the recursion of [markContentsAs] and the
    [while True] loop of [performLocal]) take a fuel argument.

    What the embedding fixes beyond the text of the script:
    - SQL does not order rows with equal sort keys.  [ORDER BY unixTime DESC]
      is taken stable, so among rows with the same time the one scanned
      first is first; this is a choice of the embedding, not of the script:
      the helper lemmas on the engine record it, and the theorems on the
      script hold for either order of the tied rows.
    - [fileId], [fileName], [filePath], [entityType], [unixTime] and [id]
      are taken non-null; [parentFolderId] may be NULL.
    - Text is a string of bytes (UTF-8), compared byte by byte.
    - The parsing of the command line is not part of the embedding, and
      [main] starts from an opened ledger and an absolute path; the search
      for the database file is embedded on its own, as [getDbFile], over a
      file system given by its [os.path.exists] and with the POSIX
      [os.path.join] and [os.path.dirname]. *)

From Stdlib Require Import List ZArith Lia Bool String Ascii.
From Stdlib Require Import Permutation Sorted OrdersEx RelationClasses.
Import ListNotations.

Local Open Scope string_scope.
Local Open Scope list_scope.
Local Open Scope Z_scope.

(** ** Data model *)

(** One row of the table [sync], with the columns the script reads or
    writes.  [parentFolderId] is nullable (the drive root has no parent). *)
Record row : Type := mkRow {
  r_id : Z;
  r_unixTime : Z;
  r_entityType : string;
  r_fileId : string;
  r_fileName : string;
  r_filePath : string;
  r_parentFolderId : option string;
  r_cloudOnly : Z
}.

Definition ledger : Type := list row.

(** The dict built by [rowToDict] from the six columns that
    [getLatestForId] selects; the keys are the column names. *)
Record entry : Type := mkEntry {
  id : Z;
  entityType : string;
  fileId : string;
  fileName : string;
  filePath : string;
  parentFolderId : option string
}.

Definition rowToDict (r : row) : entry :=
  mkEntry (r_id r) (r_entityType r) (r_fileId r) (r_fileName r)
          (r_filePath r) (r_parentFolderId r).

(** Outcome of a piece of Python code: a value, the [TypeError] raised by
    subscripting [None], or exhaustion of the fuel (the run does not
    return: unbounded recursion or an endless loop). *)
Inductive result (A : Type) : Type :=
| Ok (a : A)
| TypeError
| OutOfFuel.

Arguments Ok {A} a.
Arguments TypeError {A}.
Arguments OutOfFuel {A}.

Definition bind {A B : Type} (m : result A) (k : A -> result B) : result B :=
  match m with
  | Ok a => k a
  | TypeError => TypeError
  | OutOfFuel => OutOfFuel
  end.

Notation "x <- m ;; k" := (bind m (fun x => k))
  (at level 61, m at next level, right associativity).

(** [None[key]] raises, [d[key]] reads the dict. *)
Definition subscript {A : Type} (o : option entry) (key : entry -> A) : result A :=
  match o with
  | Some d => Ok (key d)
  | None => TypeError
  end.

(** A [for] loop over a list whose body threads a state and may raise. *)
Fixpoint forEach {A S : Type} (l : list A) (s : S) (body : S -> A -> result S)
  : result S :=
  match l with
  | [] => Ok s
  | a :: l' => s' <- body s a ;; forEach l' s' body
  end.

(** ** The storage engine *)

(** SQL [col = ?] on a nullable column: never true when either side is
    NULL. *)
Definition sqlEq (col : option string) (param : option string) : bool :=
  match col, param with
  | Some a, Some b => String.eqb a b
  | _, _ => false
  end.

(** [ORDER BY unixTime DESC]: a stable sort, so rows with equal times stay
    in scan order. *)
Fixpoint insertDesc (r : row) (l : list row) : list row :=
  match l with
  | [] => [r]
  | y :: l' =>
    if r_unixTime y <=? r_unixTime r then r :: y :: l'
    else y :: insertDesc r l'
  end.

Fixpoint orderByUnixTimeDesc (l : list row) : list row :=
  match l with
  | [] => []
  | r :: l' => insertDesc r (orderByUnixTimeDesc l')
  end.

(** [SELECT DISTINCT]: each value once, at its first occurrence. *)
Fixpoint distinctFrom (seen : list string) (l : list string) : list string :=
  match l with
  | [] => []
  | x :: l' =>
    if existsb (String.eqb x) seen then distinctFrom seen l'
    else x :: distinctFrom (x :: seen) l'
  end.

Definition distinct (l : list string) : list string := distinctFrom [] l.

Definition setCloudOnly (value : Z) (r : row) : row :=
  mkRow (r_id r) (r_unixTime r) (r_entityType r) (r_fileId r) (r_fileName r)
        (r_filePath r) (r_parentFolderId r) value.

(** [UPDATE sync SET cloudOnly = ? WHERE id = ?] *)
Definition update (value : Z) (db : ledger) (x : Z) : ledger :=
  map (fun r => if r_id r =? x then setCloudOnly value r else r) db.

Definition executemany (value : Z) (db : ledger) (ids : list Z) : ledger :=
  fold_left (update value) ids db.

(** ** The functions of the script *)

Definition getLatestForId (db : ledger) (fileId : option string) : option entry :=
  let rows := filter (fun r => sqlEq (Some (r_fileId r)) fileId) db in
  match orderByUnixTimeDesc rows with
  | [] => None
  | r :: _ => Some (rowToDict r)
  end.

Fixpoint firstAccepted (db : ledger) (path : string) (cur : list string)
  : result (option string) :=
  match cur with
  | [] => Ok None
  | fileId :: cur' =>
    let data := getLatestForId db (Some fileId) in
    p <- subscript data filePath ;;
    if String.eqb p path then Ok (Some fileId)
    else firstAccepted db path cur'
  end.

Definition getIdForPath (db : ledger) (path : string) : result (option string) :=
  let cur := map r_fileId (filter (fun r => String.eqb (r_filePath r) path) db) in
  firstAccepted db path cur.

(** Python [!=] between two values that are a string or [None]. *)
Definition pyNe (a b : option string) : bool :=
  match a, b with
  | Some x, Some y => negb (String.eqb x y)
  | None, None => false
  | _, _ => true
  end.

Definition getFolderContent (db : ledger) (folderId : option string)
  : result (list entry) :=
  let cur :=
    distinct (map r_fileId
                (filter (fun r => sqlEq (r_parentFolderId r) folderId) db)) in
  forEach cur [] (fun res fileId =>
    let data := getLatestForId db (Some fileId) in
    p <- subscript data parentFolderId ;;
    if pyNe p folderId then Ok res
    else d <- subscript data (fun d => d) ;; Ok (res ++ [d])).

(** [list.sort] on strings: the order of the code points, which on UTF-8
    text is the order of the bytes. *)
Fixpoint insertSorted (s : string) (l : list string) : list string :=
  match l with
  | [] => [s]
  | t :: l' => if String.leb s t then s :: t :: l' else t :: insertSorted s l'
  end.

Fixpoint sort (l : list string) : list string :=
  match l with
  | [] => []
  | s :: l' => insertSorted s (sort l')
  end.

(** The lines [performLs] prints, in order. *)
Definition performLs (db : ledger) (baseId : option string)
  : result (list string) :=
  content <- getFolderContent db baseId ;;
  st <- forEach content ([], [])
          (fun (st : list string * list string) c =>
             let '(files, folders) := st in
             if String.eqb (entityType c) "file"
             then Ok (files ++ [fileName c], folders)
             else if String.eqb (entityType c) "folder"
             then Ok (files, folders ++ [fileName c])
             else Ok (files, folders)) ;;
  let files := sort (fst st) in
  let folders := sort (snd st) in
  Ok (map (fun nm => (nm ++ "/")%string) folders ++ files).

Fixpoint markContentsAs (fuel : nat) (db : ledger) (baseId : option string)
         (value : Z) : result ledger :=
  match fuel with
  | O => OutOfFuel
  | S fuel' =>
    x <- subscript (getLatestForId db baseId) id ;;
    content <- getFolderContent db baseId ;;
    st <- forEach content (db, [x])
            (fun (st : ledger * list Z) c =>
               let '(db', idsToMark) := st in
               if String.eqb (entityType c) "file"
               then Ok (db', idsToMark ++ [id c])
               else if String.eqb (entityType c) "folder"
               then db'' <- markContentsAs fuel' db' (Some (fileId c)) value ;;
                    Ok (db'', idsToMark)
               else Ok (db', idsToMark)) ;;
    Ok (executemany value (fst st) (snd st))
  end.

Definition performCloud (fuel : nat) (db : ledger) (baseId : option string)
  : result ledger :=
  markContentsAs fuel db baseId 1.

(** The [while True] loop of [performLocal]. *)
Fixpoint ancestorLoop (fuel : nat) (db : ledger) (parentId : option string)
         (idsToMark : list Z) : result (list Z) :=
  match fuel with
  | O => OutOfFuel
  | S fuel' =>
    match getLatestForId db parentId with
    | None => Ok idsToMark
    | Some data =>
      ancestorLoop fuel' db (parentFolderId data) (idsToMark ++ [id data])
    end
  end.

Definition performLocal (fuel : nat) (db : ledger) (baseId : option string)
  : result ledger :=
  db1 <- markContentsAs fuel db baseId 0 ;;
  parentId <- subscript (getLatestForId db1 baseId) parentFolderId ;;
  idsToMark <- ancestorLoop fuel db1 parentId [] ;;
  Ok (executemany 0 db1 idsToMark).

Inductive action : Type := ls | cloud | local.

(** What a run leaves behind: the lines on standard output, the ledger on
    disk once the connection is closed, and how the process ended. *)
Record outcome : Type := mkOutcome {
  stdout : list string;
  stored : ledger;
  status : result unit
}.

Definition raised {A : Type} (db : ledger) (e : result A) : outcome :=
  mkOutcome [] db (bind e (fun _ => Ok tt)).

(** The body of [__main__] once the database file is found; [path] is the
    absolute path.  Writes reach the disk only through [db.commit ()]. *)
Definition main (fuel : nat) (act : action) (db : ledger) (path : string)
  : outcome :=
  match getIdForPath db path with
  | Ok baseId =>
    match act with
    | ls =>
      match performLs db baseId with
      | Ok lines => mkOutcome lines db (Ok tt)
      | e => raised db e
      end
    | cloud =>
      match performCloud fuel db baseId with
      | Ok db' => mkOutcome [] db' (Ok tt)
      | e => raised db e
      end
    | local =>
      match performLocal fuel db baseId with
      | Ok db' => mkOutcome [] db' (Ok tt)
      | e => raised db e
      end
    end
  | e => raised db e
  end.

(** ** Example ledgers *)

(** root (row 0, entity R) holds A (row 1), which holds file.txt (row 2)
    and B (row 3). *)
Definition scenario : ledger :=
  [ mkRow 0 10 "folder" "R" "drive" "/drive" None 1;
    mkRow 1 11 "folder" "1" "A" "/drive/A" (Some "R") 0;
    mkRow 2 12 "file" "2" "file.txt" "/drive/A/file.txt" (Some "1") 0;
    mkRow 3 13 "folder" "3" "B" "/drive/A/B" (Some "1") 0 ].

(** One entity, moved from /x to /y. *)
Definition moved : ledger :=
  [ mkRow 0 0 "folder" "R" "" "/" None 0;
    mkRow 1 1 "file" "e" "x" "/x" (Some "R") 0;
    mkRow 2 2 "file" "e" "y" "/y" (Some "R") 0 ].

(** A ledger with an entity whose type is neither file nor folder: the
    link (row 2) lives in A next to a file (row 3). *)
Definition withLink : ledger :=
  [ mkRow 0 10 "folder" "R" "drive" "/drive" None 0;
    mkRow 1 11 "folder" "1" "A" "/drive/A" (Some "R") 0;
    mkRow 2 12 "link" "2" "ln" "/drive/A/ln" (Some "1") 0;
    mkRow 3 13 "file" "3" "a.txt" "/drive/A/a.txt" (Some "1") 0 ].

(** Two rows of one entity with the same time. *)
Definition tied : ledger :=
  [ mkRow 0 5 "file" "e" "old" "/old" None 0;
    mkRow 1 7 "file" "e" "first" "/first" None 0;
    mkRow 2 7 "file" "e" "second" "/second" None 0 ].

(** ** Vocabulary of the specification *)

(** Two rows that agree on every column but [cloudOnly]. *)
Definition sameButFlag (r r' : row) : Prop :=
  r_id r' = r_id r /\ r_unixTime r' = r_unixTime r /\
  r_entityType r' = r_entityType r /\ r_fileId r' = r_fileId r /\
  r_fileName r' = r_fileName r /\ r_filePath r' = r_filePath r /\
  r_parentFolderId r' = r_parentFolderId r.

(** The same rows, in the same order, up to the flag. *)
Definition sameRows (db db' : ledger) : Prop := Forall2 sameButFlag db db'.

(** The ledger in which the rows with an id of [ids] carry [value] and
    every other row is as in [db]. *)
Definition markRows (value : Z) (ids : list Z) (db : ledger) : ledger :=
  map (fun r => if existsb (Z.eqb (r_id r)) ids then setCloudOnly value r else r) db.

(** The entries a folder enumeration keeps, candidate by candidate. *)
Definition keepLive (db : ledger) (folderId : option string) (f : string)
  : list entry :=
  match getLatestForId db (Some f) with
  | Some d => if pyNe (parentFolderId d) folderId then [] else [d]
  | None => []
  end.

Definition liveChildren (db : ledger) (folderId : option string) : list entry :=
  flat_map (keepLive db folderId)
    (distinct (map r_fileId
                 (filter (fun r => sqlEq (r_parentFolderId r) folderId) db))).

Definition isFile (c : entry) : bool := String.eqb (entityType c) "file".
Definition isFolder (c : entry) : bool := String.eqb (entityType c) "folder".

(** The row ids one call of [markContentsAs] writes, in the order of the
    writes: the batches of the recursive calls, then its own batch. *)
Fixpoint subtreeIds (fuel : nat) (db : ledger) (baseId : option string)
  : result (list Z) :=
  match fuel with
  | O => OutOfFuel
  | S fuel' =>
    x <- subscript (getLatestForId db baseId) id ;;
    content <- getFolderContent db baseId ;;
    st <- forEach content ([], [x])
            (fun (st : list Z * list Z) c =>
               let '(below, own) := st in
               if isFile c then Ok (below, own ++ [id c])
               else if isFolder c
               then sub <- subtreeIds fuel' db (Some (fileId c)) ;;
                    Ok (below ++ sub, own)
               else Ok (below, own)) ;;
    Ok (fst st ++ snd st)
  end.

(** [ancestor db f a]: [a] is on the parent chain of [f], read through the
    current state of each entity. *)
Inductive ancestor (db : ledger) : string -> string -> Prop :=
| anc_parent (f a : string) (d : entry) :
    getLatestForId db (Some f) = Some d -> parentFolderId d = Some a ->
    ancestor db f a
| anc_step (f a b : string) (d : entry) :
    ancestor db f a ->
    getLatestForId db (Some a) = Some d -> parentFolderId d = Some b ->
    ancestor db f b.

(** [inSubtree db f e]: [e] is [f] or lies below it. *)
Definition inSubtree (db : ledger) (f e : string) : Prop :=
  e = f \/ ancestor db e f.

(** [visited db f g]: a call of [markContentsAs] on [f] calls itself on
    [g]: it descends from a folder to the live children that are folders. *)
Inductive visited (db : ledger) (f : string) : string -> Prop :=
| v_base : visited db f f
| v_child (g : string) (c : entry) :
    visited db f g -> In c (liveChildren db (Some g)) -> isFolder c = true ->
    visited db f (fileId c).

(** What [markContentsAs] on [f] may write: the current row of a folder it
    visits, and the current rows of the files in such a folder. *)
Definition reached (db : ledger) (f : string) (x : Z) : Prop :=
  exists d, getLatestForId db (Some (fileId d)) = Some d /\ id d = x /\
            (visited db f (fileId d) \/
             exists g, visited db f g /\ In d (liveChildren db (Some g)) /\
                       isFile d = true).

(** The lines of a listing, from the content of the folder. *)
Definition lsLines (content : list entry) : list string :=
  map (fun nm => (nm ++ "/")%string) (sort (map fileName (filter isFolder content)))
  ++ sort (map fileName (filter isFile content)).

(** Row ids are unique. *)
Definition uniqueIds (db : ledger) : Prop := NoDup (map r_id db).

(** No entity is its own ancestor: the parent links decrease a rank. *)
Definition acyclic (db : ledger) : Prop :=
  exists rank : string -> nat,
    forall e d g, getLatestForId db (Some e) = Some d ->
                  parentFolderId d = Some g -> (rank g < rank e)%nat.

Definition wellFormed (db : ledger) : Prop := uniqueIds db /\ acyclic db.

(** The greatest rank of an entity of the ledger. *)
Definition topRank (rank : string -> nat) (db : ledger) : nat :=
  list_max (map (fun r => rank (r_fileId r)) db).

(** The row of [db] that is the current state of entity [e]. *)
Definition currentRow (db : ledger) (e : string) (r : row) : Prop :=
  In r db /\ getLatestForId db (Some e) = Some (rowToDict r).

(** Sorted by code points. *)
Definition sortedNames (l : list string) : Prop :=
  StronglySorted (fun s t => String.leb s t = true) l.

(** ** Locating the database file *)

(** Name of the ArDrive SQLite database file. *)
Definition DB_FILE : string := ".ardrive-cli.db".

Definition isSep (c : ascii) : bool := Ascii.eqb c "/"%char.

Fixpoint hasSep (s : string) : bool :=
  match s with
  | EmptyString => false
  | String c s' => isSep c || hasSep s'
  end.

Fixpoint allSep (s : string) : bool :=
  match s with
  | EmptyString => true
  | String c s' => isSep c && allSep s'
  end.

Fixpoint endsWithSep (s : string) : bool :=
  match s with
  | EmptyString => false
  | String c EmptyString => isSep c
  | String _ s' => endsWithSep s'
  end.

Definition startsWithSep (s : string) : bool :=
  match s with
  | String c _ => isSep c
  | EmptyString => false
  end.

(** [os.path.join (a, b)] of posixpath, for two arguments. *)
Definition join (a b : string) : string :=
  if startsWithSep b then b
  else if String.eqb a "" || endsWithSep a then (a ++ b)%string
  else (a ++ "/" ++ b)%string.

(** [p[:i]] for [i = p.rfind ("/") + 1]: [p] up to its last slash. *)
Fixpoint uptoLastSep (p : string) : string :=
  match p with
  | EmptyString => EmptyString
  | String c p' =>
    if hasSep p' then String c (uptoLastSep p')
    else if isSep c then String c EmptyString
    else EmptyString
  end.

(** [head.rstrip ("/")] *)
Fixpoint rstripSep (s : string) : string :=
  match s with
  | EmptyString => EmptyString
  | String c s' =>
    match rstripSep s' with
    | EmptyString => if isSep c then EmptyString else String c EmptyString
    | t => String c t
    end
  end.

(** [os.path.dirname] of posixpath. *)
Definition dirname (p : string) : string :=
  let head := uptoLastSep p in
  if negb (String.eqb head "") && negb (allSep head) then rstripSep head
  else head.

(** [exists] stands for [os.path.exists] on the file system of the run;
    the fuel bounds the [while True] loop. *)
Fixpoint getDbFile (fuel : nat) (exists_ : string -> bool) (path : string)
  : result (option string) :=
  match fuel with
  | O => OutOfFuel
  | S fuel' =>
    let trial := join path DB_FILE in
    if exists_ trial then Ok (Some trial)
    else
      let newPath := dirname path in
      if String.eqb newPath path then Ok None
      else getDbFile fuel' exists_ newPath
  end.

(** The file system of the examples: one database file, in /drive. *)
Definition driveOnly (p : string) : bool := String.eqb p "/drive/.ardrive-cli.db".

(** A folder that is its own parent. *)
Definition selfParent : ledger :=
  [ mkRow 0 1 "folder" "a" "a" "/a" (Some "a") 0 ].

(** Rows of one entity never share a time, so the latest row of an entity
    does not depend on the order of the table. *)
Definition distinctTimes (db : ledger) : Prop :=
  forall r r', In r db -> In r' db -> r_fileId r = r_fileId r' ->
               r_unixTime r = r_unixTime r' -> r = r'.

(** [f] comes back to itself along the folders a call of [markContentsAs]
    descends through. *)
Definition folderCycle (db : ledger) (f : string) : Prop :=
  exists g c, visited db f g /\ In c (liveChildren db (Some g)) /\
              isFolder c = true /\ fileId c = f.

(** [admissibleLatest db f r]: [r] is a row that the query of
    [getLatestForId] may return for [f], whatever the engine does with rows
    of equal time: a row of [f] than which no row of [f] is later. *)
Definition admissibleLatest (db : ledger) (f : string) (r : row) : Prop :=
  In r db /\ r_fileId r = f /\
  forall x, In x db -> r_fileId x = f -> r_unixTime x <= r_unixTime r.

(** ** The storage engine: facts *)

Section Engine.

Lemma orderBy_nil (l : list row) : orderByUnixTimeDesc l = [] -> l = [].
Proof.
  destruct l as [|a l]; simpl; [reflexivity|].
  destruct (orderByUnixTimeDesc l) as [|y ys]; simpl; [discriminate|].
  destruct (r_unixTime y <=? r_unixTime a); discriminate.
Qed.

(** The first row of the ordered result is the first row, in scan order,
    that carries the greatest time. *)
Lemma orderBy_head (l : list row) (r : row) (rest : list row) :
  orderByUnixTimeDesc l = r :: rest ->
  exists pre post,
    l = pre ++ r :: post /\
    (forall x, In x pre -> r_unixTime x < r_unixTime r) /\
    (forall x, In x post -> r_unixTime x <= r_unixTime r).
Proof.
  revert r rest. induction l as [|a l IH]; simpl; intros r rest H; [discriminate|].
  destruct (orderByUnixTimeDesc l) as [|y ys] eqn:E.
  - apply orderBy_nil in E. subst l. simpl in H. injection H as <- _.
    exists [], []. repeat split; simpl; intros; contradiction.
  - destruct (IH y ys eq_refl) as (pre & post & -> & Hpre & Hpost).
    simpl in H. destruct (r_unixTime y <=? r_unixTime a) eqn:C.
    + injection H as <- _. apply Z.leb_le in C.
      exists [], (pre ++ y :: post). repeat split; simpl; [intros; contradiction|].
      intros x Hx. apply in_app_or in Hx. destruct Hx as [Hx|[<-|Hx]].
      * specialize (Hpre x Hx). lia.
      * assumption.
      * specialize (Hpost x Hx). lia.
    + injection H as <- _. apply Z.leb_gt in C.
      exists (a :: pre), post. repeat split; simpl.
      * intros x [<-|Hx]; [assumption|auto].
      * assumption.
Qed.

Lemma filter_split {A : Type} (p : A -> bool) (l a b : list A) (x : A) :
  filter p l = a ++ x :: b ->
  exists a' b', l = a' ++ x :: b' /\ filter p a' = a /\ filter p b' = b /\ p x = true.
Proof.
  revert a. induction l as [|h l IH]; simpl; intros a H.
  - destruct a; discriminate.
  - destruct (p h) eqn:Ph.
    + destruct a as [|a0 a]; simpl in H.
      * injection H as -> Hb. exists [], l. simpl. auto.
      * injection H as -> H. destruct (IH a H) as (a' & b' & -> & Ha & Hb & Px).
        exists (a0 :: a'), b'. simpl. rewrite Ph, Ha. auto.
    + destruct (IH a H) as (a' & b' & -> & Ha & Hb & Px).
      exists (h :: a'), b'. simpl. rewrite Ph. auto.
Qed.

Lemma sqlEq_true (a : string) (p : option string) :
  sqlEq (Some a) p = true <-> p = Some a.
Proof.
  destruct p as [b|]; simpl; split; intro H; try discriminate.
  - apply String.eqb_eq in H. congruence.
  - injection H as ->. apply String.eqb_refl.
Qed.

Lemma getLatestForId_None (db : ledger) : getLatestForId db None = None.
Proof.
  unfold getLatestForId.
  replace (filter (fun r => sqlEq (Some (r_fileId r)) None) db) with (@nil row);
    [reflexivity|].
  induction db; simpl; auto.
Qed.

Lemma getLatestForId_Some (db : ledger) (f : option string) (d : entry) :
  getLatestForId db f = Some d ->
  exists pre r post,
    db = pre ++ r :: post /\ d = rowToDict r /\ f = Some (r_fileId r) /\
    (forall x, In x pre -> f = Some (r_fileId x) -> r_unixTime x < r_unixTime r) /\
    (forall x, In x post -> f = Some (r_fileId x) -> r_unixTime x <= r_unixTime r).
Proof.
  unfold getLatestForId. intros H.
  destruct (orderByUnixTimeDesc _) as [|r rest] eqn:E; [discriminate|].
  injection H as <-.
  destruct (orderBy_head _ _ _ E) as (pre & post & Hf & Hpre & Hpost).
  destruct (filter_split _ _ _ _ _ Hf) as (pre' & post' & -> & <- & <- & Pr).
  apply sqlEq_true in Pr.
  exists pre', r, post'. repeat split; auto.
  - intros x Hx Hfx. apply Hpre. apply filter_In. split; [assumption|].
    apply sqlEq_true. assumption.
  - intros x Hx Hfx. apply Hpost. apply filter_In. split; [assumption|].
    apply sqlEq_true. assumption.
Qed.

Lemma getLatestForId_is_None (db : ledger) (f : string) :
  getLatestForId db (Some f) = None <-> (forall r, In r db -> r_fileId r <> f).
Proof.
  unfold getLatestForId. split.
  - intros H r Hr Hf.
    destruct (orderByUnixTimeDesc _) as [|y ys] eqn:E; [|discriminate].
    apply orderBy_nil in E.
    assert (Hin : In r (filter (fun r => sqlEq (Some (r_fileId r)) (Some f)) db)).
    { apply filter_In. split; [assumption|]. apply sqlEq_true. congruence. }
    rewrite E in Hin. contradiction.
  - intros H.
    destruct (orderByUnixTimeDesc _) as [|y ys] eqn:E; [reflexivity|].
    destruct (orderBy_head _ _ _ E) as (pre & post & Hf & _).
    destruct (filter_split _ _ _ _ _ Hf) as (pre' & post' & -> & _ & _ & Pr).
    apply sqlEq_true in Pr. exfalso. apply (H y).
    + apply in_or_app. right. left. reflexivity.
    + congruence.
Qed.

Lemma getLatestForId_present (db : ledger) (r : row) :
  In r db -> exists d, getLatestForId db (Some (r_fileId r)) = Some d.
Proof.
  intros Hr. destruct (getLatestForId db (Some (r_fileId r))) as [d|] eqn:E.
  - exists d. reflexivity.
  - exfalso. exact (proj1 (getLatestForId_is_None _ _) E r Hr eq_refl).
Qed.

Lemma getLatestForId_fileId (db : ledger) (f : option string) (d : entry) :
  getLatestForId db f = Some d -> f = Some (fileId d).
Proof.
  intros H. destruct (getLatestForId_Some _ _ _ H) as (_ & r & _ & _ & -> & Hf & _).
  exact Hf.
Qed.

Lemma getLatestForId_row (db : ledger) (f : option string) (d : entry) :
  getLatestForId db f = Some d -> exists r, In r db /\ d = rowToDict r.
Proof.
  intros H. destruct (getLatestForId_Some _ _ _ H) as (pre & r & post & -> & -> & _).
  exists r. split; [|reflexivity]. apply in_or_app. right. left. reflexivity.
Qed.

End Engine.

(** ** Writes touch the flag only, and no read looks at the flag *)

Section Frame.

Lemma sameButFlag_refl (r : row) : sameButFlag r r.
Proof. unfold sameButFlag. repeat split. Qed.

Lemma sameButFlag_set (v : Z) (r : row) : sameButFlag r (setCloudOnly v r).
Proof. unfold sameButFlag. repeat split. Qed.

Lemma sameButFlag_trans (a b c : row) :
  sameButFlag a b -> sameButFlag b c -> sameButFlag a c.
Proof.
  unfold sameButFlag. intros (?&?&?&?&?&?&?) (?&?&?&?&?&?&?).
  repeat split; congruence.
Qed.

Lemma sameButFlag_dict (r r' : row) : sameButFlag r r' -> rowToDict r' = rowToDict r.
Proof.
  unfold sameButFlag, rowToDict. intros (?&?&?&?&?&?&?). congruence.
Qed.

Lemma sameRows_refl (db : ledger) : sameRows db db.
Proof. induction db; constructor; auto using sameButFlag_refl. Qed.

Lemma sameRows_trans (a b c : ledger) : sameRows a b -> sameRows b c -> sameRows a c.
Proof.
  intros H. revert c.
  induction H as [|x y l l' Hxy _ IH]; intros c Hc; inversion Hc; subst; constructor.
  - eapply sameButFlag_trans; eassumption.
  - apply IH. assumption.
Qed.

Lemma sameRows_markRows (v : Z) (ids : list Z) (db : ledger) :
  sameRows db (markRows v ids db).
Proof.
  induction db as [|r db IH]; simpl; constructor; [|exact IH].
  destruct (existsb _ ids); auto using sameButFlag_refl, sameButFlag_set.
Qed.

Lemma sameRows_filter (p : row -> bool) (l l' : ledger) :
  (forall r r', sameButFlag r r' -> p r' = p r) ->
  sameRows l l' -> sameRows (filter p l) (filter p l').
Proof.
  intros Hp H. induction H as [|r r' l l' Hr _ IH]; simpl; [constructor|].
  rewrite (Hp _ _ Hr). destruct (p r); [constructor|]; assumption.
Qed.

Lemma sameRows_insertDesc (r r' : row) (l l' : ledger) :
  sameButFlag r r' -> sameRows l l' -> sameRows (insertDesc r l) (insertDesc r' l').
Proof.
  intros Hr H. induction H as [|y y' l l' Hy Hl IH]; simpl.
  - constructor; [assumption|constructor].
  - assert (Tr := proj1 (proj2 Hr)). assert (Ty := proj1 (proj2 Hy)).
    rewrite Tr, Ty. destruct (r_unixTime y <=? r_unixTime r).
    + constructor; [assumption|]. constructor; assumption.
    + constructor; [assumption|]. apply IH.
Qed.

Lemma sameRows_orderBy (l l' : ledger) :
  sameRows l l' -> sameRows (orderByUnixTimeDesc l) (orderByUnixTimeDesc l').
Proof.
  intros H. induction H; simpl; [constructor|].
  apply sameRows_insertDesc; assumption.
Qed.

Lemma sameRows_map {A : Type} (g : row -> A) (l l' : ledger) :
  (forall r r', sameButFlag r r' -> g r' = g r) ->
  sameRows l l' -> map g l' = map g l.
Proof.
  intros Hg H. induction H as [|r r' l l' Hr _ IH]; simpl; [reflexivity|].
  rewrite (Hg _ _ Hr), IH. reflexivity.
Qed.

Lemma getLatestForId_frame (db db' : ledger) (f : option string) :
  sameRows db db' -> getLatestForId db' f = getLatestForId db f.
Proof.
  intros H. unfold getLatestForId.
  assert (S : sameRows
                (orderByUnixTimeDesc (filter (fun r => sqlEq (Some (r_fileId r)) f) db))
                (orderByUnixTimeDesc (filter (fun r => sqlEq (Some (r_fileId r)) f) db'))).
  { apply sameRows_orderBy, sameRows_filter; [|assumption].
    intros r r' (_&_&_&E&_). rewrite E. reflexivity. }
  destruct S as [|r r' l l' Hr _]; [reflexivity|].
  rewrite (sameButFlag_dict _ _ Hr). reflexivity.
Qed.

Lemma forEach_ext {A S : Type} (l : list A) (s : S) (b b' : S -> A -> result S) :
  (forall s a, In a l -> b s a = b' s a) -> forEach l s b = forEach l s b'.
Proof.
  revert s. induction l as [|a l IH]; simpl; intros s H; [reflexivity|].
  rewrite (H s a (or_introl eq_refl)).
  destruct (b' s a); simpl; auto.
Qed.

Lemma getFolderContent_frame (db db' : ledger) (f : option string) :
  sameRows db db' -> getFolderContent db' f = getFolderContent db f.
Proof.
  intros H. unfold getFolderContent.
  rewrite (sameRows_map r_fileId
             (filter (fun r => sqlEq (r_parentFolderId r) f) db)
             (filter (fun r => sqlEq (r_parentFolderId r) f) db')).
  - apply forEach_ext. intros s a _.
    rewrite (getLatestForId_frame _ _ _ H). reflexivity.
  - intros r r' (_&_&_&E&_). exact E.
  - apply sameRows_filter; [|assumption].
    intros r r' (_&_&_&_&_&_&E). rewrite E. reflexivity.
Qed.

Lemma getIdForPath_frame (db db' : ledger) (path : string) :
  sameRows db db' -> getIdForPath db' path = getIdForPath db path.
Proof.
  intros H. unfold getIdForPath.
  rewrite (sameRows_map r_fileId
             (filter (fun r => String.eqb (r_filePath r) path) db)
             (filter (fun r => String.eqb (r_filePath r) path) db')).
  - generalize (map r_fileId (filter (fun r => String.eqb (r_filePath r) path) db)).
    intros cur. induction cur as [|c cur IH]; simpl; [reflexivity|].
    rewrite (getLatestForId_frame _ _ _ H), IH. reflexivity.
  - intros r r' (_&_&_&E&_). exact E.
  - apply sameRows_filter; [|assumption].
    intros r r' (_&_&_&_&_&E&_). rewrite E. reflexivity.
Qed.

Lemma subtreeIds_frame (fuel : nat) (db db' : ledger) (f : option string) :
  sameRows db db' -> subtreeIds fuel db' f = subtreeIds fuel db f.
Proof.
  intros H. revert f. induction fuel as [|n IH]; intros f; simpl; [reflexivity|].
  rewrite (getLatestForId_frame _ _ _ H), (getFolderContent_frame _ _ _ H).
  destruct (subscript (getLatestForId db f) id); simpl; try reflexivity.
  destruct (getFolderContent db f) as [content| |]; simpl; try reflexivity.
  f_equal. apply forEach_ext. intros [below own] c _.
  rewrite IH. reflexivity.
Qed.

Lemma markRows_nil (v : Z) (db : ledger) : markRows v [] db = db.
Proof. unfold markRows. simpl. apply map_id. Qed.

Lemma markRows_app (v : Z) (ids1 ids2 : list Z) (db : ledger) :
  markRows v ids2 (markRows v ids1 db) = markRows v (ids1 ++ ids2) db.
Proof.
  unfold markRows. rewrite map_map. apply map_ext. intros r.
  rewrite existsb_app.
  destruct (existsb (Z.eqb (r_id r)) ids1) eqn:E1; simpl.
  - destruct (existsb _ ids2); reflexivity.
  - reflexivity.
Qed.

Lemma update_markRows (v : Z) (db : ledger) (x : Z) : update v db x = markRows v [x] db.
Proof.
  unfold update, markRows. apply map_ext. intros r. simpl.
  rewrite Bool.orb_false_r. reflexivity.
Qed.

Lemma executemany_markRows (v : Z) (ids : list Z) (db : ledger) :
  executemany v db ids = markRows v ids db.
Proof.
  unfold executemany. revert db. induction ids as [|x ids IH]; intros db; simpl.
  - symmetry. apply markRows_nil.
  - rewrite IH, update_markRows. apply (markRows_app v [x] ids).
Qed.

End Frame.

(** ** The folder enumerator *)

Section Enumerator.

Lemma pyNe_false (a b : option string) : pyNe a b = false <-> a = b.
Proof.
  destruct a as [x|], b as [y|]; simpl; split; intro H;
    try discriminate; try reflexivity.
  - apply Bool.negb_false_iff, String.eqb_eq in H. congruence.
  - injection H as ->. rewrite String.eqb_refl. reflexivity.
Qed.

Lemma existsb_eqb_In (x : string) (l : list string) :
  existsb (String.eqb x) l = true <-> In x l.
Proof.
  rewrite existsb_exists. split.
  - intros (y & Hy & E). apply String.eqb_eq in E. congruence.
  - intros H. exists x. split; [assumption|apply String.eqb_refl].
Qed.

Lemma distinctFrom_In (seen l : list string) (x : string) :
  In x (distinctFrom seen l) <-> In x l /\ ~ In x seen.
Proof.
  revert seen. induction l as [|y l IH]; intros seen; simpl; [tauto|].
  destruct (existsb (String.eqb y) seen) eqn:E.
  - apply existsb_eqb_In in E. rewrite IH. split.
    + tauto.
    + intros [[<-|H] N]; tauto.
  - assert (N : ~ In y seen).
    { intros H. apply existsb_eqb_In in H. congruence. }
    simpl. rewrite IH. simpl. split.
    + intros [<-|[H1 H2]]; tauto.
    + intros [[<-|H] N']; [tauto|].
      destruct (string_dec y x) as [<-|D]; tauto.
Qed.

Lemma distinctFrom_NoDup (seen l : list string) : NoDup (distinctFrom seen l).
Proof.
  revert seen. induction l as [|y l IH]; intros seen; simpl; [constructor|].
  destruct (existsb (String.eqb y) seen); [apply IH|].
  constructor; [|apply IH].
  rewrite distinctFrom_In. simpl. tauto.
Qed.

Lemma distinct_In (l : list string) (x : string) : In x (distinct l) <-> In x l.
Proof. unfold distinct. rewrite distinctFrom_In. simpl. tauto. Qed.

Lemma candidates_present (db : ledger) (fo : option string) (f : string) :
  In f (distinct (map r_fileId
                    (filter (fun r => sqlEq (r_parentFolderId r) fo) db))) ->
  exists r, In r db /\ r_fileId r = f /\ sqlEq (r_parentFolderId r) fo = true.
Proof.
  rewrite distinct_In, in_map_iff. intros (r & E & Hr).
  apply filter_In in Hr. exists r. tauto.
Qed.

Lemma enumerate_loop (db : ledger) (fo : option string) (cur : list string)
      (res : list entry) :
  (forall f, In f cur -> getLatestForId db (Some f) <> None) ->
  forEach cur res
    (fun res fileId =>
       let data := getLatestForId db (Some fileId) in
       p <- subscript data parentFolderId ;;
       if pyNe p fo then Ok res
       else d <- subscript data (fun d => d) ;; Ok (res ++ [d]))
  = Ok (res ++ flat_map (keepLive db fo) cur).
Proof.
  revert res. induction cur as [|f cur IH]; intros res H; simpl.
  - rewrite app_nil_r. reflexivity.
  - unfold keepLive at 1.
    destruct (getLatestForId db (Some f)) as [d|] eqn:E.
    + simpl. destruct (pyNe (parentFolderId d) fo); simpl.
      * apply IH. intros g Hg. apply H. right. assumption.
      * rewrite IH; [|intros g Hg; apply H; right; assumption].
        rewrite <- app_assoc. reflexivity.
    + exfalso. apply (H f); [left; reflexivity|assumption].
Qed.

(** The enumerator never raises: every candidate has a current state. *)
Lemma getFolderContent_live (db : ledger) (fo : option string) :
  getFolderContent db fo = Ok (liveChildren db fo).
Proof.
  unfold getFolderContent, liveChildren. rewrite enumerate_loop; [reflexivity|].
  intros f Hf E. destruct (candidates_present _ _ _ Hf) as (r & Hr & <- & _).
  destruct (getLatestForId_present db r Hr) as (d & Hd). congruence.
Qed.

Lemma liveChildren_In (db : ledger) (fo : option string) (d : entry) :
  In d (liveChildren db fo) <->
  getLatestForId db (Some (fileId d)) = Some d /\
  parentFolderId d = fo /\ fo <> None.
Proof.
  unfold liveChildren. rewrite in_flat_map. split.
  - intros (f & Hf & Hd). unfold keepLive in Hd.
    destruct (getLatestForId db (Some f)) as [d'|] eqn:E; [|contradiction].
    destruct (pyNe (parentFolderId d') fo) eqn:P; [contradiction|].
    destruct Hd as [<-|[]]. apply pyNe_false in P.
    pose proof (getLatestForId_fileId _ _ _ E) as F. injection F as F.
    rewrite <- F. split; [assumption|]. split; [assumption|].
    destruct (candidates_present _ _ _ Hf) as (r & _ & _ & S).
    destruct fo; [discriminate|]. destruct (r_parentFolderId r); discriminate.
  - intros (E & P & N). exists (fileId d). split.
    + rewrite distinct_In, in_map_iff.
      destruct (getLatestForId_row _ _ _ E) as (r & Hr & ->).
      exists r. split; [reflexivity|]. apply filter_In. split; [assumption|].
      simpl in P. rewrite P. destruct fo as [f|]; [|congruence].
      simpl. apply String.eqb_refl.
    + unfold keepLive. rewrite E.
      rewrite (proj2 (pyNe_false _ _) P). left. reflexivity.
Qed.

Lemma liveChildren_NoDup (db : ledger) (fo : option string) :
  NoDup (map fileId (liveChildren db fo)).
Proof.
  unfold liveChildren.
  generalize (distinctFrom_NoDup []
               (map r_fileId (filter (fun r => sqlEq (r_parentFolderId r) fo) db))).
  fold (distinct (map r_fileId (filter (fun r => sqlEq (r_parentFolderId r) fo) db))).
  generalize (distinct (map r_fileId (filter (fun r => sqlEq (r_parentFolderId r) fo) db))).
  intros cur. induction 1 as [|f cur Hf Hnd IH]; simpl; [constructor|].
  rewrite map_app. unfold keepLive at 1.
  destruct (getLatestForId db (Some f)) as [d|] eqn:E; [|exact IH].
  destruct (pyNe (parentFolderId d) fo); [exact IH|].
  simpl. constructor; [|exact IH].
  intros Hin. apply in_map_iff in Hin. destruct Hin as (d' & Ed & Hd').
  apply in_flat_map in Hd'. destruct Hd' as (g & Hg & Hd').
  unfold keepLive in Hd'.
  destruct (getLatestForId db (Some g)) as [d''|] eqn:E'; [|contradiction].
  destruct (pyNe (parentFolderId d'') fo); [contradiction|].
  destruct Hd' as [<-|[]].
  apply getLatestForId_fileId in E, E'. injection E as E. injection E' as E'.
  apply Hf. congruence.
Qed.

End Enumerator.

(** ** The subtree mutator writes [value] on the rows of [subtreeIds] *)

Section Mutator.

Lemma bind_Ok {A B : Type} (a : A) (k : A -> result B) : bind (Ok a) k = k a.
Proof. reflexivity. Qed.

Lemma mark_loop (n : nat) (v : Z) (db : ledger)
      (IH : forall db f, markContentsAs n db f v
                         = (ids <- subtreeIds n db f ;; Ok (markRows v ids db)))
      (content : list entry) (below own : list Z) :
  forEach content (markRows v below db, own)
    (fun (st : ledger * list Z) c =>
       let '(db', idsToMark) := st in
       if String.eqb (entityType c) "file"
       then Ok (db', idsToMark ++ [id c])
       else if String.eqb (entityType c) "folder"
       then db'' <- markContentsAs n db' (Some (fileId c)) v ;;
            Ok (db'', idsToMark)
       else Ok (db', idsToMark))
  = (st <- forEach content (below, own)
             (fun (st : list Z * list Z) c =>
                let '(below, own) := st in
                if isFile c then Ok (below, own ++ [id c])
                else if isFolder c
                then sub <- subtreeIds n db (Some (fileId c)) ;;
                     Ok (below ++ sub, own)
                else Ok (below, own)) ;;
     Ok (markRows v (fst st) db, snd st)).
Proof.
  revert below own. induction content as [|c content IHc]; intros below own; simpl.
  - reflexivity.
  - unfold isFile, isFolder.
    destruct (String.eqb (entityType c) "file"); simpl; [apply IHc|].
    destruct (String.eqb (entityType c) "folder"); simpl; [|apply IHc].
    rewrite IH, (subtreeIds_frame n db _ _ (sameRows_markRows v below db)).
    destruct (subtreeIds n db (Some (fileId c))) as [sub| |]; simpl; try reflexivity.
    rewrite markRows_app. apply IHc.
Qed.

Lemma markContentsAs_S (n : nat) (db : ledger) (f : option string) (v : Z) :
  markContentsAs (S n) db f v =
  (x <- subscript (getLatestForId db f) id ;;
   content <- getFolderContent db f ;;
   st <- forEach content (db, [x])
           (fun (st : ledger * list Z) c =>
              let '(db', idsToMark) := st in
              if String.eqb (entityType c) "file"
              then Ok (db', idsToMark ++ [id c])
              else if String.eqb (entityType c) "folder"
              then db'' <- markContentsAs n db' (Some (fileId c)) v ;;
                   Ok (db'', idsToMark)
              else Ok (db', idsToMark)) ;;
   Ok (executemany v (fst st) (snd st))).
Proof. reflexivity. Qed.

Lemma subtreeIds_S (n : nat) (db : ledger) (f : option string) :
  subtreeIds (S n) db f =
  (x <- subscript (getLatestForId db f) id ;;
   content <- getFolderContent db f ;;
   st <- forEach content ([], [x])
           (fun (st : list Z * list Z) c =>
              let '(below, own) := st in
              if isFile c then Ok (below, own ++ [id c])
              else if isFolder c
              then sub <- subtreeIds n db (Some (fileId c)) ;;
                   Ok (below ++ sub, own)
              else Ok (below, own)) ;;
   Ok (fst st ++ snd st)).
Proof. reflexivity. Qed.

Lemma markContentsAs_subtreeIds (fuel : nat) (db : ledger) (f : option string) (v : Z) :
  markContentsAs fuel db f v = (ids <- subtreeIds fuel db f ;; Ok (markRows v ids db)).
Proof.
  revert db f. induction fuel as [|n IH]; intros db f; [reflexivity|].
  rewrite markContentsAs_S, subtreeIds_S.
  destruct (subscript (getLatestForId db f) id) as [x| |]; try reflexivity.
  rewrite getFolderContent_live, !bind_Ok.
  pose proof (mark_loop n v db IH (liveChildren db f) [] [x]) as L.
  rewrite markRows_nil in L. rewrite L.
  destruct (forEach (liveChildren db f) ([], [x]) _) as [[below own]| |];
    try reflexivity.
  cbn [bind fst snd].
  rewrite executemany_markRows, markRows_app. reflexivity.
Qed.

Lemma markContentsAs_Ok (fuel : nat) (db db' : ledger) (f : option string) (v : Z) :
  markContentsAs fuel db f v = Ok db' <->
  exists ids, subtreeIds fuel db f = Ok ids /\ db' = markRows v ids db.
Proof.
  rewrite markContentsAs_subtreeIds.
  destruct (subtreeIds fuel db f) as [ids| |]; simpl; split.
  - intros H. injection H as <-. exists ids. auto.
  - intros (ids' & E & ->). injection E as ->. reflexivity.
  - discriminate.
  - intros (? & E & _). discriminate.
  - discriminate.
  - intros (? & E & _). discriminate.
Qed.

(** The ancestor loop reads the chain of current states. *)
Lemma ancestorLoop_frame (fuel : nat) (db db' : ledger) (p : option string)
      (acc : list Z) :
  sameRows db db' -> ancestorLoop fuel db' p acc = ancestorLoop fuel db p acc.
Proof.
  intros H. revert p acc. induction fuel as [|n IH]; intros p acc; simpl; [reflexivity|].
  rewrite (getLatestForId_frame _ _ _ H).
  destruct (getLatestForId db p); [apply IH|reflexivity].
Qed.

Lemma ancestorLoop_acc (fuel : nat) (db : ledger) (p : option string)
      (acc : list Z) :
  ancestorLoop fuel db p acc
  = (ids <- ancestorLoop fuel db p [] ;; Ok (acc ++ ids)).
Proof.
  revert p acc. induction fuel as [|n IH]; intros p acc; [reflexivity|].
  cbn [ancestorLoop]. destruct (getLatestForId db p) as [d|].
  - rewrite (IH _ (acc ++ [id d])), (IH _ ([] ++ [id d])).
    destruct (ancestorLoop n db (parentFolderId d) []) as [ids| |];
      try reflexivity.
    cbn [bind app]. rewrite <- app_assoc. reflexivity.
  - cbn [bind]. rewrite app_nil_r. reflexivity.
Qed.

End Mutator.

(** ** Which rows the traversals reach *)

Section Reach.

Variable db : ledger.

Lemma forEach_inv {A S : Type} (I : S -> Prop) (l : list A)
      (body : S -> A -> result S) :
  (forall s a s', In a l -> I s -> body s a = Ok s' -> I s') ->
  forall s s', I s -> forEach l s body = Ok s' -> I s'.
Proof.
  induction l as [|a l IH]; intros Hb s s' Hs; simpl.
  - intros E. injection E as <-. assumption.
  - destruct (body s a) as [s1| |] eqn:E; simpl; try discriminate.
    apply IH.
    + intros s0 a0 s0' Ha. apply Hb. right. assumption.
    + apply (Hb s a s1); auto. left. reflexivity.
Qed.

Lemma forEach_mono {A S : Type} (l : list A) (body body' : S -> A -> result S) :
  (forall s a s', In a l -> body s a = Ok s' -> body' s a = Ok s') ->
  forall s r, forEach l s body = Ok r -> forEach l s body' = Ok r.
Proof.
  induction l as [|a l IH]; intros Hb s r; simpl; [auto|].
  destruct (body s a) as [s1| |] eqn:E; simpl; try discriminate.
  rewrite (Hb s a s1 (or_introl eq_refl) E). simpl.
  apply IH. intros s0 a0 s0' Ha. apply Hb. right. assumption.
Qed.

Lemma forEach_total {A S : Type} (l : list A) (body : S -> A -> result S) :
  (forall s a, In a l -> exists s', body s a = Ok s') ->
  forall s, exists s', forEach l s body = Ok s'.
Proof.
  induction l as [|a l IH]; intros Hb s; simpl.
  - exists s. reflexivity.
  - destruct (Hb s a (or_introl eq_refl)) as (s1 & ->). simpl.
    apply IH. intros s0 a0 Ha. apply Hb. right. assumption.
Qed.

Lemma ancestor_trans (a b c : string) :
  ancestor db a b -> ancestor db b c -> ancestor db a c.
Proof.
  intros Hab Hbc. induction Hbc as [b c d E P|b c c' d _ IH E P].
  - eapply anc_step; eassumption.
  - eapply anc_step; [apply IH; assumption|eassumption|eassumption].
Qed.

Lemma ancestor_bottom (b a : string) :
  ancestor db b a ->
  exists d, getLatestForId db (Some b) = Some d /\
            (parentFolderId d = Some a \/
             exists c, parentFolderId d = Some c /\ ancestor db c a).
Proof.
  induction 1 as [b a d E P|b a' a d' _ IH E P].
  - exists d. auto.
  - destruct IH as (d & Ed & [Pd|(c & Pc & Hc)]); exists d; split; auto; right.
    + exists a'. split; [assumption|]. eapply anc_parent; eassumption.
    + exists c. split; [assumption|]. eapply anc_step; eassumption.
Qed.

Lemma child_inSubtree (f : string) (g : string) (c : entry) :
  inSubtree db f g -> In c (liveChildren db (Some g)) ->
  inSubtree db f (fileId c).
Proof.
  intros Hg Hc. apply liveChildren_In in Hc. destruct Hc as (E & P & _).
  right. destruct Hg as [->|Hg].
  - eapply anc_parent; eassumption.
  - eapply ancestor_trans; [|exact Hg]. eapply anc_parent; eassumption.
Qed.

Lemma visited_inSubtree (f g : string) : visited db f g -> inSubtree db f g.
Proof.
  induction 1 as [|g c _ IH Hc _]; [left; reflexivity|].
  eapply child_inSubtree; eassumption.
Qed.

Lemma subtreeIds_reached_gen (f : string) (n : nat) :
  forall g ids,
    visited db f g ->
    subtreeIds n db (Some g) = Ok ids ->
    forall x, In x ids -> reached db f x.
Proof.
  induction n as [|n IH]; intros g ids Hg; [discriminate|].
  rewrite subtreeIds_S.
  destruct (getLatestForId db (Some g)) as [dg|] eqn:Eg; [|discriminate].
  cbn [subscript]. rewrite getFolderContent_live, !bind_Ok.
  destruct (forEach (liveChildren db (Some g)) ([], [id dg]) _)
    as [[below own]| |] eqn:L; try discriminate.
  cbn [bind fst snd]. intros E. injection E as <-.
  pose proof (getLatestForId_fileId _ _ _ Eg) as Fg. injection Fg as Fg.
  revert L.
  apply (forEach_inv (fun st : list Z * list Z =>
                        forall x, In x (fst st ++ snd st) -> reached db f x)).
  - intros [bl ow] c [bl' ow'] Hc Hinv. cbn [fst snd] in *.
    pose proof (proj1 (liveChildren_In _ _ _) Hc) as (Ec & _).
    destruct (isFile c) eqn:Tf.
    + intros E. injection E as <- <-. intros x Hx.
      rewrite app_assoc in Hx. apply in_app_or in Hx. destruct Hx as [Hx|[<-|[]]].
      * apply Hinv. assumption.
      * exists c. split; [assumption|]. split; [reflexivity|].
        right. exists g. auto.
    + destruct (isFolder c) eqn:Td.
      * destruct (subtreeIds n db (Some (fileId c))) as [sub| |] eqn:Es;
          try discriminate.
        cbn [bind]. intros E. injection E as <- <-. intros x Hx.
        rewrite <- app_assoc in Hx. apply in_app_or in Hx. destruct Hx as [Hx|Hx].
        -- apply Hinv. apply in_or_app. left. assumption.
        -- apply in_app_or in Hx. destruct Hx as [Hx|Hx].
           ++ apply (IH (fileId c) sub); auto. eapply v_child; eassumption.
           ++ apply Hinv. apply in_or_app. right. assumption.
      * intros E. injection E as <- <-. assumption.
  - cbn [fst snd app]. intros x [<-|[]]. exists dg. rewrite <- Fg.
    split; [assumption|]. split; [reflexivity|]. left. assumption.
Qed.

Lemma subtreeIds_reached (f : string) (n : nat) (ids : list Z) :
  subtreeIds n db (Some f) = Ok ids -> forall x, In x ids -> reached db f x.
Proof.
  apply subtreeIds_reached_gen. constructor.
Qed.

Lemma reached_inSubtree (f : string) (x : Z) :
  reached db f x ->
  exists d, getLatestForId db (Some (fileId d)) = Some d /\ id d = x /\
            inSubtree db f (fileId d) /\
            (fileId d = f \/ isFile d = true \/ isFolder d = true).
Proof.
  intros (d & E & Hx & H). exists d. split; [assumption|]. split; [assumption|].
  destruct H as [V|(g & V & Hc & Tf)].
  - split; [apply visited_inSubtree; assumption|].
    inversion V as [F|g c Vg Hc Tc F]; [left; reflexivity|].
    right. right. apply liveChildren_In in Hc. destruct Hc as (Ec & _).
    rewrite F in Ec. congruence.
  - split; [|auto]. eapply child_inSubtree; [|eassumption].
    apply visited_inSubtree. assumption.
Qed.

(** The first write of a call is on the current row of its folder. *)
Lemma subtreeIds_base (n : nat) (f : option string) (ids : list Z) :
  subtreeIds n db f = Ok ids ->
  exists d, getLatestForId db f = Some d /\ In (id d) ids.
Proof.
  destruct n as [|n]; [discriminate|]. rewrite subtreeIds_S.
  destruct (getLatestForId db f) as [d|] eqn:E; [|discriminate].
  cbn [subscript]. rewrite getFolderContent_live, !bind_Ok.
  destruct (forEach (liveChildren db f) ([], [id d]) _)
    as [[below own]| |] eqn:L; try discriminate.
  cbn [bind fst snd]. intros H. injection H as <-.
  exists d. split; [reflexivity|]. apply in_or_app. right.
  revert L.
  apply (forEach_inv (fun st : list Z * list Z => In (id d) (snd st))).
  - intros [bl ow] c [bl' ow'] _ Hin. cbn [snd] in *.
    destruct (isFile c).
    + intros H. injection H as <- <-. apply in_or_app. left. assumption.
    + destruct (isFolder c).
      * destruct (subtreeIds n db (Some (fileId c))); try discriminate.
        cbn [bind]. intros H. injection H as <- <-. assumption.
      * intros H. injection H as <- <-. assumption.
  - left. reflexivity.
Qed.

Lemma subtreeIds_mono (n : nat) :
  forall f ids, subtreeIds n db f = Ok ids -> subtreeIds (S n) db f = Ok ids.
Proof.
  induction n as [|n IH]; intros f ids; [discriminate|].
  rewrite (subtreeIds_S (S n)), (subtreeIds_S n).
  destruct (subscript (getLatestForId db f) id) as [x| |]; try discriminate.
  rewrite getFolderContent_live, !bind_Ok.
  destruct (forEach (liveChildren db f) ([], [x]) _) as [st| |] eqn:L;
    try discriminate.
  cbn [bind]. intros H.
  eapply forEach_mono in L; [rewrite L; exact H|].
  intros [bl ow] c s' _. cbn beta iota.
  destruct (isFile c); [auto|]. destruct (isFolder c); [|auto].
  destruct (subtreeIds n db (Some (fileId c))) as [sub| |] eqn:Es;
    try discriminate.
  rewrite (IH _ _ Es). auto.
Qed.

Lemma subtreeIds_fuel (n m : nat) (f : option string) (ids : list Z) :
  (n <= m)%nat -> subtreeIds n db f = Ok ids -> subtreeIds m db f = Ok ids.
Proof.
  induction 1 as [|m _ IH]; [auto|]. intros H. apply subtreeIds_mono, IH, H.
Qed.

End Reach.

(** ** On an acyclic ledger the traversals return *)

Section Termination.

Variable db : ledger.
Variable rank : string -> nat.
Hypothesis rank_parent :
  forall e d g, getLatestForId db (Some e) = Some d ->
                parentFolderId d = Some g -> (rank g < rank e)%nat.

Lemma rank_top (d : entry) (f : option string) :
  getLatestForId db f = Some d -> (rank (fileId d) <= topRank rank db)%nat.
Proof.
  intros E. destruct (getLatestForId_row _ _ _ E) as (r & Hr & ->).
  assert (F : Forall (fun k => (k <= topRank rank db)%nat)
                     (map (fun r => rank (r_fileId r)) db)).
  { apply list_max_le. apply Nat.le_refl. }
  rewrite Forall_forall in F. apply F.
  apply in_map_iff. exists r. auto.
Qed.

Lemma subtreeIds_total (n : nat) :
  forall f, getLatestForId db (Some f) <> None ->
            (topRank rank db - rank f < n)%nat ->
            exists ids, subtreeIds n db (Some f) = Ok ids.
Proof.
  induction n as [|n IH]; intros f Hf Hn; [lia|].
  rewrite subtreeIds_S.
  destruct (getLatestForId db (Some f)) as [d|] eqn:E; [|congruence].
  cbn [subscript]. rewrite getFolderContent_live, !bind_Ok.
  assert (Hb : forall (s : list Z * list Z) c,
             In c (liveChildren db (Some f)) ->
             exists s',
               (let '(below, own) := s in
                if isFile c then Ok (below, own ++ [id c])
                else if isFolder c
                then sub <- subtreeIds n db (Some (fileId c)) ;;
                     Ok (below ++ sub, own)
                else Ok (below, own)) = Ok s').
  { intros [below own] c Hc. apply liveChildren_In in Hc.
    destruct Hc as (Ec & Pc & _).
    destruct (isFile c); [eexists; reflexivity|].
    destruct (isFolder c); [|eexists; reflexivity].
    destruct (IH (fileId c)) as (sub & ->).
    - congruence.
    - pose proof (rank_parent _ _ _ Ec Pc). pose proof (rank_top _ _ Ec). lia.
    - eexists. reflexivity. }
  destruct (forEach_total _ _ Hb (@nil Z, [id d])) as (st & ->).
  eexists. reflexivity.
Qed.

Lemma ancestorLoop_total (n : nat) :
  forall p, (match p with Some b => S (rank b) | None => O end < n)%nat ->
            exists ids, ancestorLoop n db p [] = Ok ids.
Proof.
  induction n as [|n IH]; intros p Hp; [lia|].
  cbn [ancestorLoop]. destruct (getLatestForId db p) as [d|] eqn:E.
  - rewrite ancestorLoop_acc.
    destruct (IH (parentFolderId d)) as (ids & ->).
    + destruct p as [b|]; [|rewrite getLatestForId_None in E; discriminate].
      destruct (parentFolderId d) as [g|] eqn:P; [|lia].
      pose proof (rank_parent _ _ _ E P). lia.
    + eexists. reflexivity.
  - eexists. reflexivity.
Qed.

End Termination.

Section Walk.

Variable db : ledger.

Lemma ancestorLoop_S (n : nat) (p : option string) (acc : list Z) :
  ancestorLoop (S n) db p acc =
  match getLatestForId db p with
  | None => Ok acc
  | Some data => ancestorLoop n db (parentFolderId data) (acc ++ [id data])
  end.
Proof. reflexivity. Qed.

Lemma ancestorLoop_mono (n : nat) :
  forall p ids, ancestorLoop n db p [] = Ok ids ->
                ancestorLoop (S n) db p [] = Ok ids.
Proof.
  induction n as [|n IH]; intros p ids; [discriminate|].
  rewrite (ancestorLoop_S (S n)), (ancestorLoop_S n).
  destruct (getLatestForId db p) as [d|]; [|auto].
  rewrite (ancestorLoop_acc n), (ancestorLoop_acc (S n)).
  destruct (ancestorLoop n db (parentFolderId d) []) as [ids'| |] eqn:E;
    try discriminate.
  rewrite (IH _ _ E). auto.
Qed.

Lemma ancestorLoop_fuel (n m : nat) (p : option string) (ids : list Z) :
  (n <= m)%nat -> ancestorLoop n db p [] = Ok ids ->
  ancestorLoop m db p [] = Ok ids.
Proof.
  induction 1 as [|m _ IH]; [auto|]. intros H. apply ancestorLoop_mono, IH, H.
Qed.

(** The walk that starts at [p] collects the current row of [p] and of
    every ancestor of [p] that has one, and nothing else. *)
Lemma ancestorLoop_visits (n : nat) :
  forall p ids, ancestorLoop n db p [] = Ok ids ->
  forall a d,
    (p = Some a \/ exists b, p = Some b /\ ancestor db b a) ->
    getLatestForId db (Some a) = Some d -> In (id d) ids.
Proof.
  induction n as [|n IH]; intros p ids; [discriminate|].
  rewrite ancestorLoop_S. destruct (getLatestForId db p) as [d0|] eqn:E0.
  - rewrite ancestorLoop_acc.
    destruct (ancestorLoop n db (parentFolderId d0) []) as [ids'| |] eqn:E;
      try discriminate.
    cbn [bind app]. intros H. injection H as <-. intros a d Hp Ha.
    destruct Hp as [->|(b & -> & Hb)].
    + left. congruence.
    + right. apply (IH _ _ E a d); [|assumption].
      destruct (ancestor_bottom db b a Hb) as (d' & Ed' & Hd').
      rewrite Ed' in E0. injection E0 as ->.
      destruct Hd' as [P|(c & P & Hc)]; [left; assumption|].
      right. exists c. auto.
  - intros H. injection H as <-. intros a d Hp Ha.
    destruct Hp as [->|(b & -> & Hb)]; [congruence|].
    destruct (ancestor_bottom db b a Hb) as (d' & Ed' & _). congruence.
Qed.

Lemma ancestorLoop_only (n : nat) :
  forall p ids, ancestorLoop n db p [] = Ok ids ->
  forall x, In x ids ->
    exists a d, getLatestForId db (Some a) = Some d /\ id d = x /\
                (p = Some a \/ exists b, p = Some b /\ ancestor db b a).
Proof.
  induction n as [|n IH]; intros p ids; [discriminate|].
  rewrite ancestorLoop_S. destruct (getLatestForId db p) as [d0|] eqn:E0.
  - rewrite ancestorLoop_acc.
    destruct (ancestorLoop n db (parentFolderId d0) []) as [ids'| |] eqn:E;
      try discriminate.
    cbn [bind app]. intros H. injection H as <-. intros x Hx.
    pose proof (getLatestForId_fileId _ _ _ E0) as F0.
    destruct Hx as [<-|Hx].
    + exists (fileId d0), d0. rewrite <- F0. auto.
    + destruct (IH _ _ E x Hx) as (a & d & Ea & Ex & Hp).
      exists a, d. split; [assumption|]. split; [assumption|].
      right. exists (fileId d0). split; [assumption|]. rewrite F0 in E0.
      destruct Hp as [P|(b & P & Hb)].
      * eapply anc_parent; eassumption.
      * eapply ancestor_trans; [|exact Hb]. eapply anc_parent; eassumption.
  - intros H. injection H as <-. intros x [].
Qed.

Lemma ancestorLoop_exact (f : string) (n : nat) (d : entry) (ids : list Z) :
  getLatestForId db (Some f) = Some d ->
  ancestorLoop n db (parentFolderId d) [] = Ok ids ->
  forall x, In x ids <->
            exists a da, ancestor db f a /\
                         getLatestForId db (Some a) = Some da /\ id da = x.
Proof.
  intros Ef E x. split.
  - intros Hx. destruct (ancestorLoop_only n _ _ E x Hx) as (a & da & Ea & Hid & Hp).
    exists a, da. split; [|auto].
    destruct Hp as [P|(b & P & Hb)].
    + eapply anc_parent; eassumption.
    + eapply ancestor_trans; [|exact Hb]. eapply anc_parent; eassumption.
  - intros (a & da & Ha & Ea & <-).
    apply (ancestorLoop_visits n _ _ E a da); [|assumption].
    destruct (ancestor_bottom db f a Ha) as (d' & Ed' & Hd').
    rewrite Ef in Ed'. injection Ed' as <-.
    destruct Hd' as [P|(c & P & Hc)]; [left; assumption|].
    right. exists c. auto.
Qed.

End Walk.

Section Unique.

Lemma uniqueIds_row (db : ledger) (r r' : row) :
  uniqueIds db -> In r db -> In r' db -> r_id r = r_id r' -> r = r'.
Proof.
  unfold uniqueIds. induction db as [|a db IH]; simpl; [contradiction|].
  intros U. inversion U as [|? ? Ha Hd]; subst.
  intros [->|Hr] [->|Hr'] E.
  - reflexivity.
  - exfalso. apply Ha. rewrite E. apply in_map. assumption.
  - exfalso. apply Ha. rewrite <- E. apply in_map. assumption.
  - apply IH; assumption.
Qed.

(** With unique ids, a row whose id is the id of the current state of an
    entity is a row of that entity. *)
Lemma uniqueIds_current (db : ledger) (r : row) (f : option string) (d : entry) :
  uniqueIds db -> In r db -> getLatestForId db f = Some d -> r_id r = id d ->
  rowToDict r = d.
Proof.
  intros U Hr E Hid. destruct (getLatestForId_row _ _ _ E) as (r0 & Hr0 & ->).
  rewrite (uniqueIds_row db r r0 U Hr Hr0 Hid). reflexivity.
Qed.

End Unique.

(** ** The listing *)

Section Listing.

Lemma leb_trans (a b c : string) :
  String.leb a b = true -> String.leb b c = true -> String.leb a c = true.
Proof.
  pose proof (@StrictOrder_Transitive _ _ String_as_OT.lt_strorder) as T.
  pose proof (@StrictOrder_Irreflexive _ _ String_as_OT.lt_strorder) as I.
  unfold String.leb.
  change String.compare with String_as_OT.compare.
  destruct (String_as_OT.compare_spec a b) as [Eab|Hab|Hab];
    try discriminate; intros _.
  - rewrite Eab. auto.
  - destruct (String_as_OT.compare_spec b c) as [Ebc|Hbc|Hbc];
      try discriminate; intros _.
    + rewrite <- Ebc.
      destruct (String_as_OT.compare_spec a b) as [|H|H]; auto.
      exfalso. apply (I a). apply (T a b a); assumption.
    + destruct (String_as_OT.compare_spec a c) as [|H|H]; auto.
      exfalso. apply (I a). apply (T a b a); [assumption|].
      apply (T b c a); assumption.
Qed.

Lemma insertSorted_perm (s : string) (l : list string) :
  Permutation (insertSorted s l) (s :: l).
Proof.
  induction l as [|t l IH]; simpl; [reflexivity|].
  destruct (String.leb s t); [reflexivity|].
  rewrite IH. apply perm_swap.
Qed.

Lemma sort_perm (l : list string) : Permutation (sort l) l.
Proof.
  induction l as [|s l IH]; simpl; [reflexivity|].
  rewrite insertSorted_perm. constructor. assumption.
Qed.

Lemma insertSorted_sorted (s : string) (l : list string) :
  sortedNames l -> sortedNames (insertSorted s l).
Proof.
  unfold sortedNames. induction 1 as [|t l Hl IH Ht]; simpl.
  - repeat constructor.
  - destruct (String.leb s t) eqn:E.
    + constructor; [constructor; assumption|].
      constructor; [assumption|].
      rewrite Forall_forall in *. intros u Hu. eapply leb_trans; eauto.
    + constructor; [assumption|].
      rewrite Forall_forall in *. intros u Hu.
      apply (Permutation_in _ (insertSorted_perm s l)) in Hu.
      destruct Hu as [<-|Hu]; [|auto].
      destruct (String.leb_total s t) as [H|H]; congruence.
Qed.

Lemma sort_sorted (l : list string) : sortedNames (sort l).
Proof.
  induction l as [|s l IH]; simpl; [constructor|].
  apply insertSorted_sorted. assumption.
Qed.

Lemma isFile_isFolder (c : entry) : isFile c = true -> isFolder c = false.
Proof.
  unfold isFile, isFolder. intros H. apply String.eqb_eq in H. rewrite H.
  reflexivity.
Qed.

Lemma ls_loop (content : list entry) (files folders : list string) :
  forEach content (files, folders)
    (fun (st : list string * list string) c =>
       let '(files, folders) := st in
       if String.eqb (entityType c) "file"
       then Ok (files ++ [fileName c], folders)
       else if String.eqb (entityType c) "folder"
       then Ok (files, folders ++ [fileName c])
       else Ok (files, folders))
  = Ok (files ++ map fileName (filter isFile content),
        folders ++ map fileName (filter isFolder content)).
Proof.
  revert files folders.
  induction content as [|c content IH]; intros files folders; simpl.
  - rewrite !app_nil_r. reflexivity.
  - fold (isFile c). fold (isFolder c). destruct (isFile c) eqn:Tf.
    + rewrite (isFile_isFolder c Tf). simpl. rewrite IH, <- app_assoc.
      reflexivity.
    + destruct (isFolder c); simpl; rewrite IH; [|reflexivity].
      rewrite <- app_assoc. reflexivity.
Qed.

Lemma performLs_lines (db : ledger) (f : option string) :
  performLs db f = Ok (lsLines (liveChildren db f)).
Proof.
  unfold performLs. rewrite getFolderContent_live, bind_Ok, ls_loop.
  reflexivity.
Qed.

Lemma lsLines_omit (pre post : list entry) (c : entry) :
  isFile c = false -> isFolder c = false ->
  lsLines (pre ++ c :: post) = lsLines (pre ++ post).
Proof.
  intros Tf Td. unfold lsLines. rewrite !filter_app. simpl.
  rewrite Tf, Td. reflexivity.
Qed.

Lemma names_partition (content : list entry) :
  (forall c, In c content -> isFile c = true \/ isFolder c = true) ->
  Permutation (map fileName (filter isFolder content)
               ++ map fileName (filter isFile content))
              (map fileName content).
Proof.
  induction content as [|c content IH]; intros H; simpl; [constructor|].
  assert (IH' := IH (fun c' Hc' => H c' (or_intror Hc'))).
  destruct (H c (or_introl eq_refl)) as [Tf|Td].
  - rewrite Tf, (isFile_isFolder c Tf). simpl.
    rewrite <- Permutation_middle. constructor. assumption.
  - rewrite Td. destruct (isFile c) eqn:Tf.
    + rewrite (isFile_isFolder c Tf) in Td. discriminate.
    + simpl. constructor. assumption.
Qed.

End Listing.

(** ** The path resolver *)

Section Resolver.

Lemma firstAccepted_cases (db : ledger) (path : string) (cur : list string) :
  (forall f, In f cur -> getLatestForId db (Some f) <> None) ->
  (firstAccepted db path cur = Ok None /\
   forall f d, In f cur -> getLatestForId db (Some f) = Some d ->
               filePath d <> path)
  \/
  (exists e d, firstAccepted db path cur = Ok (Some e) /\ In e cur /\
               getLatestForId db (Some e) = Some d /\ filePath d = path).
Proof.
  induction cur as [|f cur IH]; intros H; simpl.
  - left. split; [reflexivity|]. intros f d [].
  - destruct (getLatestForId db (Some f)) as [d|] eqn:E;
      [|exfalso; apply (H f); [left; reflexivity|assumption]].
    simpl. destruct (String.eqb (filePath d) path) eqn:P.
    + right. exists f, d. apply String.eqb_eq in P. auto.
    + apply String.eqb_neq in P.
      destruct IH as [(E' & N)|(e & d' & E' & Hin & Ed & Pd)].
      * intros g Hg. apply H. right. assumption.
      * left. split; [assumption|]. intros g dg [<-|Hg] Eg.
        -- congruence.
        -- eapply N; eassumption.
      * right. exists e, d'. auto.
Qed.

Lemma candidates_by_path (db : ledger) (path : string) (f : string) :
  In f (map r_fileId (filter (fun r => String.eqb (r_filePath r) path) db)) <->
  exists r, In r db /\ r_fileId r = f /\ r_filePath r = path.
Proof.
  rewrite in_map_iff. split.
  - intros (r & E & Hr). apply filter_In in Hr. destruct Hr as (Hr & P).
    apply String.eqb_eq in P. exists r. auto.
  - intros (r & Hr & E & P). exists r. split; [assumption|].
    apply filter_In. split; [assumption|]. apply String.eqb_eq. assumption.
Qed.

Lemma getIdForPath_cases (db : ledger) (path : string) :
  (getIdForPath db path = Ok None /\
   forall e d, getLatestForId db (Some e) = Some d -> filePath d <> path)
  \/
  (exists e d, getIdForPath db path = Ok (Some e) /\
               getLatestForId db (Some e) = Some d /\ filePath d = path).
Proof.
  unfold getIdForPath.
  destruct (firstAccepted_cases db path
              (map r_fileId (filter (fun r => String.eqb (r_filePath r) path) db)))
    as [(E & N)|(e & d & E & _ & Ed & P)].
  - intros f Hf. apply candidates_by_path in Hf. destruct Hf as (r & Hr & <- & _).
    destruct (getLatestForId_present db r Hr) as (d & ->). discriminate.
  - left. split; [assumption|]. intros e d Ed P.
    destruct (getLatestForId_row _ _ _ Ed) as (r & Hr & ->).
    pose proof (getLatestForId_fileId _ _ _ Ed) as F. injection F as F.
    apply (N e (rowToDict r)); [|assumption|assumption].
    apply candidates_by_path. exists r. auto.
  - right. exists e, d. auto.
Qed.

End Resolver.

Section Lists.

Lemma Forall2_map_same {A : Type} (P : A -> A -> Prop) (g : A -> A) (l : list A) :
  (forall a, In a l -> P a (g a)) -> Forall2 P l (map g l).
Proof.
  induction l as [|a l IH]; intros H; simpl; constructor.
  - apply H. left. reflexivity.
  - apply IH. intros b Hb. apply H. right. assumption.
Qed.

Lemma markRows_row (v : Z) (ids : list Z) (r : row) :
  (In (r_id r) ids ->
   (if existsb (Z.eqb (r_id r)) ids then setCloudOnly v r else r) = setCloudOnly v r)
  /\
  (~ In (r_id r) ids ->
   (if existsb (Z.eqb (r_id r)) ids then setCloudOnly v r else r) = r).
Proof.
  destruct (existsb (Z.eqb (r_id r)) ids) eqn:E; split; intros H; try reflexivity.
  - exfalso. apply H. apply existsb_exists in E. destruct E as (x & Hx & E).
    apply Z.eqb_eq in E. congruence.
  - exfalso. assert (X : existsb (Z.eqb (r_id r)) ids = true); [|congruence].
    apply existsb_exists. exists (r_id r). split; [assumption|apply Z.eqb_refl].
Qed.

Lemma markRows_same_members (v : Z) (ids ids' : list Z) (db : ledger) :
  (forall x, In x ids <-> In x ids') -> markRows v ids db = markRows v ids' db.
Proof.
  intros H. unfold markRows. apply map_ext. intros r.
  destruct (existsb (Z.eqb (r_id r)) ids) eqn:E,
           (existsb (Z.eqb (r_id r)) ids') eqn:E'; try reflexivity; exfalso.
  - apply existsb_exists in E. destruct E as (x & Hx & E).
    apply H in Hx. assert (X : existsb (Z.eqb (r_id r)) ids' = true); [|congruence].
    apply existsb_exists. exists x. auto.
  - apply existsb_exists in E'. destruct E' as (x & Hx & E').
    apply H in Hx. assert (X : existsb (Z.eqb (r_id r)) ids = true); [|congruence].
    apply existsb_exists. exists x. auto.
Qed.

Lemma markRows_idem (v : Z) (ids : list Z) (db : ledger) :
  markRows v ids (markRows v ids db) = markRows v ids db.
Proof.
  rewrite markRows_app. apply markRows_same_members.
  intros x. rewrite in_app_iff. tauto.
Qed.

End Lists.

(** ** The operations as a whole *)

Section Operations.

Lemma performLocal_Ok (n : nat) (db db' : ledger) (f : option string) :
  performLocal n db f = Ok db' <->
  exists ids1 d ids2,
    subtreeIds n db f = Ok ids1 /\ getLatestForId db f = Some d /\
    ancestorLoop n db (parentFolderId d) [] = Ok ids2 /\
    db' = markRows 0 (ids1 ++ ids2) db.
Proof.
  unfold performLocal. rewrite markContentsAs_subtreeIds.
  destruct (subtreeIds n db f) as [ids1| |] eqn:E1; cbn [bind].
  - rewrite (getLatestForId_frame db _ f (sameRows_markRows 0 ids1 db)).
    destruct (getLatestForId db f) as [d|] eqn:Ed; cbn [subscript bind].
    + rewrite (ancestorLoop_frame n db _ _ _ (sameRows_markRows 0 ids1 db)).
      destruct (ancestorLoop n db (parentFolderId d) []) as [ids2| |] eqn:E2;
        cbn [bind].
      * rewrite executemany_markRows, markRows_app. split.
        -- intros H. injection H as <-. exists ids1, d, ids2. auto.
        -- intros (i1 & d' & i2 & H1 & Hd & H2 & ->).
           injection H1 as <-. injection Hd as <-. rewrite E2 in H2.
           injection H2 as <-. reflexivity.
      * split; [discriminate|]. intros (i1 & d' & i2 & _ & Hd & H2 & _).
        injection Hd as <-. congruence.
      * split; [discriminate|]. intros (i1 & d' & i2 & _ & Hd & H2 & _).
        injection Hd as <-. congruence.
    + split; [discriminate|]. intros (i1 & d' & i2 & _ & Hd & _). discriminate.
  - split; [discriminate|]. intros (i1 & d' & i2 & H1 & _). discriminate.
  - split; [discriminate|]. intros (i1 & d' & i2 & H1 & _). discriminate.
Qed.

Lemma markContentsAs_sameRows (n : nat) (db db' : ledger) (f : option string) (v : Z) :
  markContentsAs n db f v = Ok db' -> sameRows db db'.
Proof.
  intros H. apply markContentsAs_Ok in H. destruct H as (ids & _ & ->).
  apply sameRows_markRows.
Qed.

Lemma performLocal_sameRows (n : nat) (db db' : ledger) (f : option string) :
  performLocal n db f = Ok db' -> sameRows db db'.
Proof.
  intros H. apply performLocal_Ok in H. destruct H as (i1 & d & i2 & _ & _ & _ & ->).
  apply sameRows_markRows.
Qed.

Lemma liveChildren_None (db : ledger) : liveChildren db None = [].
Proof.
  destruct (liveChildren db None) as [|d l] eqn:E; [reflexivity|].
  assert (H : In d (liveChildren db None)) by (rewrite E; left; reflexivity).
  apply liveChildren_In in H. destruct H as (_ & _ & N). congruence.
Qed.

Lemma acyclic_ancestor (db : ledger) (rank : string -> nat) :
  (forall e d g, getLatestForId db (Some e) = Some d ->
                 parentFolderId d = Some g -> (rank g < rank e)%nat) ->
  forall a b, ancestor db a b -> (rank b < rank a)%nat.
Proof.
  intros R a b H. induction H as [a b d E P|a b c d _ IH E P].
  - eapply R; eassumption.
  - pose proof (R _ _ _ E P). lia.
Qed.

(** On an acyclic ledger the subtree mutator returns on every folder the
    ledger knows, and more fuel does not change what it returns. *)
Lemma markContentsAs_returns (db : ledger) (f : string) (v : Z) :
  acyclic db -> getLatestForId db (Some f) <> None ->
  exists n ids, forall m, (n <= m)%nat ->
    subtreeIds m db (Some f) = Ok ids /\
    markContentsAs m db (Some f) v = Ok (markRows v ids db).
Proof.
  intros (rank & R) Hf.
  destruct (subtreeIds_total db rank R (S (topRank rank db)) f Hf)
    as (ids & E); [lia|].
  exists (S (topRank rank db)), ids.
  intros m Hm. pose proof (subtreeIds_fuel db _ m _ _ Hm E) as E'.
  split; [assumption|]. apply markContentsAs_Ok. exists ids. auto.
Qed.

Lemma main_ls_stored (fuel : nat) (db : ledger) (path : string) :
  stored (main fuel ls db path) = db.
Proof.
  unfold main. destruct (getIdForPath db path) as [baseId| |]; try reflexivity.
  destruct (performLs db baseId); reflexivity.
Qed.

End Operations.

(** ** Entities that are neither files nor folders *)

Section OtherTypes.

Variable db : ledger.

Lemma visited_below (g h x : string) :
  visited db g h -> ancestor db h x -> visited db g x \/ inSubtree db x g.
Proof.
  induction 1 as [|h0 c V IH Hc Tc]; intros Ha.
  - right. right. assumption.
  - apply liveChildren_In in Hc. destruct Hc as (Ec & Pc & _).
    destruct (ancestor_bottom db _ _ Ha) as (d & Ed & Hd).
    rewrite Ec in Ed. injection Ed as <-.
    destruct Hd as [P|(c2 & P & H2)].
    + left. congruence.
    + apply IH. congruence.
Qed.

Lemma other_not_visited (g : string) (c : entry) :
  getLatestForId db (Some (fileId c)) = Some c ->
  isFolder c = false -> fileId c <> g -> ~ visited db g (fileId c).
Proof.
  intros Ec Tc Hg V. inversion V as [F|h c' Vh Hc' Tc' F]; [congruence|].
  apply liveChildren_In in Hc'. destruct Hc' as (Ec' & _).
  rewrite F in Ec'. congruence.
Qed.

Lemma reached_entry (g : string) (d : entry) :
  uniqueIds db -> getLatestForId db (Some (fileId d)) = Some d ->
  reached db g (id d) ->
  visited db g (fileId d) \/
  exists h, visited db g h /\ In d (liveChildren db (Some h)) /\ isFile d = true.
Proof.
  intros U Ed (d' & Ed' & Hid & H).
  destruct (getLatestForId_row _ _ _ Ed) as (r & Hr & Er).
  assert (X : rowToDict r = d').
  { apply (uniqueIds_current db r _ d' U Hr Ed'). rewrite Hid, Er. reflexivity. }
  rewrite <- X, <- Er in H. exact H.
Qed.

Lemma other_not_reached (g : string) (c : entry) :
  uniqueIds db ->
  getLatestForId db (Some (fileId c)) = Some c ->
  isFile c = false -> isFolder c = false -> fileId c <> g ->
  ~ reached db g (id c).
Proof.
  intros U Ec Tf Td Hg H.
  destruct (reached_entry g c U Ec H) as [V|(h & _ & _ & Tf')]; [|congruence].
  exact (other_not_visited g c Ec Td Hg V).
Qed.

Lemma below_other_not_reached (g : string) (c d : entry) :
  uniqueIds db ->
  getLatestForId db (Some (fileId c)) = Some c ->
  isFolder c = false -> fileId c <> g -> ~ inSubtree db (fileId c) g ->
  getLatestForId db (Some (fileId d)) = Some d ->
  ancestor db (fileId d) (fileId c) ->
  ~ reached db g (id d).
Proof.
  intros U Ec Td Hg Hout Ed Ha H.
  pose proof (other_not_visited g c Ec Td Hg) as NV.
  destruct (reached_entry g d U Ed H) as [V|(h & V & Hc & _)].
  - destruct (visited_below g _ _ V Ha) as [V'|S]; contradiction.
  - apply liveChildren_In in Hc. destruct Hc as (_ & P & _).
    destruct (ancestor_bottom db _ _ Ha) as (d' & Ed' & Hd').
    rewrite Ed in Ed'. injection Ed' as <-.
    destruct Hd' as [P'|(c2 & P' & H2)].
    + apply NV. congruence.
    + assert (c2 = h) by congruence. subst c2.
      destruct (visited_below g _ _ V H2) as [V'|S]; contradiction.
Qed.

End OtherTypes.

(** * The claims *)

(** C1 (as amended).  For an entity with at least one row,
    [getLatestForId] returns a row of that entity whose time is the greatest
    among the rows of the entity; when several rows carry the greatest time
    it returns one of them, and which one is left to the storage engine:
    the query has no second sort key.  For an entity without rows (and for
    [None]) it returns [None]. *)
Theorem getLatestForId_max_time (db : ledger) (f : string) :
  ((exists r, In r db /\ r_fileId r = f) ->
   exists d, getLatestForId db (Some f) = Some d) /\
  (forall d, getLatestForId db (Some f) = Some d ->
     exists r, admissibleLatest db f r /\ d = rowToDict r) /\
  ((forall r, In r db -> r_fileId r <> f) -> getLatestForId db (Some f) = None) /\
  getLatestForId db None = None.
Proof.
  split; [|split; [|split]].
  - intros (r & Hr & <-). apply getLatestForId_present. assumption.
  - intros d E.
    destruct (getLatestForId_Some _ _ _ E)
      as (pre & r & post & -> & -> & F & Hpre & Hpost).
    injection F as F. exists r. split; [|reflexivity].
    split; [apply in_or_app; right; left; reflexivity|]. split; [auto|].
    intros x Hx Fx. apply in_app_or in Hx. destruct Hx as [Hx|[<-|Hx]].
    + assert (r_unixTime x < r_unixTime r) by (apply Hpre; congruence). lia.
    + lia.
    + apply Hpost; congruence.
  - apply getLatestForId_is_None.
  - apply getLatestForId_None.
Qed.

Lemma getLatestForId_max_time_witness :
  exists d r, getLatestForId tied (Some "e") = Some d /\
              admissibleLatest tied "e" r /\ d = rowToDict r.
Proof.
  destruct (proj1 (getLatestForId_max_time tied "e")) as (d & E).
  - exists (mkRow 2 7 "file" "e" "second" "/second" None 0).
    split; [simpl; auto|reflexivity].
  - destruct (proj1 (proj2 (getLatestForId_max_time tied "e")) d E) as (r & A & Er).
    exists d, r. auto.
Defined.

(** C1 as stated fails: the script fixes no tie-break.  On the table
    [tied] the query admits two answers with different entries (the rows 1
    and 2, both with the greatest time of the entity), and the answer of
    the embedding changes when the same rows are scanned in another
    order. *)
Lemma getLatestForId_tie_not_fixed :
  admissibleLatest tied "e" (mkRow 1 7 "file" "e" "first" "/first" None 0) /\
  admissibleLatest tied "e" (mkRow 2 7 "file" "e" "second" "/second" None 0) /\
  rowToDict (mkRow 1 7 "file" "e" "first" "/first" None 0)
  <> rowToDict (mkRow 2 7 "file" "e" "second" "/second" None 0) /\
  Permutation tied (rev tied) /\
  getLatestForId tied (Some "e") <> getLatestForId (rev tied) (Some "e").
Proof.
  assert (B : forall x, In x tied -> r_unixTime x <= 7).
  { intros x Hx. simpl in Hx. destruct Hx as [<-|[<-|[<-|[]]]]; simpl; lia. }
  split; [|split; [|split; [|split]]].
  - split; [simpl; auto|]. split; [reflexivity|]. intros x Hx _. apply B, Hx.
  - split; [simpl; auto|]. split; [reflexivity|]. intros x Hx _. apply B, Hx.
  - discriminate.
  - apply Permutation_rev.
  - vm_compute. discriminate.
Qed.

(** C3.  [getIdForPath] never raises; it returns an identifier exactly when
    some entity's current state has the queried path, and the identifier it
    returns has that path in its current state, whatever superseded rows
    say.  After a move from /x to /y only /y resolves. *)
Theorem getIdForPath_current (db : ledger) (path : string) :
  (exists o, getIdForPath db path = Ok o) /\
  ((exists e, getIdForPath db path = Ok (Some e)) <->
   (exists e d, getLatestForId db (Some e) = Some d /\ filePath d = path)) /\
  (forall e, getIdForPath db path = Ok (Some e) ->
     exists d, getLatestForId db (Some e) = Some d /\ filePath d = path) /\
  getIdForPath moved "/x" = Ok None /\
  getIdForPath moved "/y" = Ok (Some "e").
Proof.
  destruct (getIdForPath_cases db path) as [(E & N)|(e & d & E & Ed & P)].
  - split; [exists None; assumption|]. split; [|split; [|split; reflexivity]].
    + split.
      * intros (e & E'). congruence.
      * intros (e & d & Ed & P). exfalso. eapply N; eassumption.
    + intros e E'. congruence.
  - split; [exists (Some e); assumption|]. split; [|split; [|split; reflexivity]].
    + split.
      * intros _. exists e, d. auto.
      * intros _. exists e. assumption.
    + intros e' E'. rewrite E in E'. injection E' as <-. exists d. auto.
Qed.

Lemma getIdForPath_current_witness :
  exists d, getLatestForId moved (Some "e") = Some d /\ filePath d = "/y".
Proof.
  apply (proj1 (proj2 (proj2 (getIdForPath_current moved "/y"))) "e").
  reflexivity.
Defined.

(** C4.  [getFolderContent] never raises; its result holds, once each, the
    current states of the entities of which some row has parent [f] and
    whose current state still has parent [f], and nothing else: an entity
    whose current parent is not [f] is not in it. *)
Theorem getFolderContent_current (db : ledger) (f : string) :
  exists content,
    getFolderContent db (Some f) = Ok content /\
    NoDup (map fileId content) /\
    (forall d, In d content <->
       (exists r, In r db /\ r_parentFolderId r = Some f /\
                  getLatestForId db (Some (r_fileId r)) = Some d) /\
       parentFolderId d = Some f) /\
    (forall d, In d content <->
       getLatestForId db (Some (fileId d)) = Some d /\ parentFolderId d = Some f) /\
    (forall e d, getLatestForId db (Some e) = Some d ->
                 parentFolderId d <> Some f -> ~ In e (map fileId content)).
Proof.
  exists (liveChildren db (Some f)).
  assert (L : forall d, In d (liveChildren db (Some f)) <->
                getLatestForId db (Some (fileId d)) = Some d /\
                parentFolderId d = Some f).
  { intros d. rewrite liveChildren_In. split; [tauto|].
    intros (E & P). repeat split; auto. discriminate. }
  split; [apply getFolderContent_live|]. split; [apply liveChildren_NoDup|].
  split; [|split; [exact L|]].
  - intros d. rewrite L. split.
    + intros (E & P). split; [|assumption].
      destruct (getLatestForId_row _ _ _ E) as (r & Hr & ->).
      exists r. auto.
    + intros ((r & Hr & Pr & E) & P). split; [|assumption].
      pose proof (getLatestForId_fileId _ _ _ E) as F. injection F as F.
      rewrite <- F. assumption.
  - intros e d E P Hin. apply in_map_iff in Hin. destruct Hin as (d' & <- & Hd').
    apply L in Hd'. destruct Hd' as (E' & P'). congruence.
Qed.

(** A file that was in A and now lives in B. *)
Lemma getFolderContent_current_witness :
  let db := [ mkRow 0 1 "folder" "A" "A" "/A" None 0;
              mkRow 1 1 "folder" "B" "B" "/B" None 0;
              mkRow 2 2 "file" "e" "e" "/A/e" (Some "A") 0;
              mkRow 3 3 "file" "e" "e" "/B/e" (Some "B") 0 ] in
  getFolderContent db (Some "A") = Ok [] /\
  exists content, getFolderContent db (Some "A") = Ok content /\
                  ~ In "e" (map fileId content).
Proof.
  intros db. split; [reflexivity|].
  destruct (getFolderContent_current db "A") as (content & E & _ & _ & _ & N).
  exists content. split; [exact E|].
  apply (N "e" (mkEntry 3 "file" "e" "e" "/B/e" (Some "B"))).
  - reflexivity.
  - discriminate.
Defined.

(** C2.  What a run does on a path that resolves to no entity: [ls] prints
    nothing and ends normally, [cloud] and [local] end in the [TypeError] of
    [None["id"]]; in all three nothing is printed and the stored ledger is
    the one before the run.  No action reports the path. *)
Theorem main_unresolved_path (fuel : nat) (db : ledger) (path : string) :
  getIdForPath db path = Ok None ->
  main fuel ls db path = mkOutcome [] db (Ok tt) /\
  main (S fuel) cloud db path = mkOutcome [] db TypeError /\
  main (S fuel) local db path = mkOutcome [] db TypeError.
Proof.
  intros H. unfold main. rewrite H. split; [|split].
  - rewrite performLs_lines, liveChildren_None. reflexivity.
  - unfold performCloud. rewrite markContentsAs_S, getLatestForId_None.
    reflexivity.
  - unfold performLocal. rewrite markContentsAs_S, getLatestForId_None.
    reflexivity.
Qed.

Lemma main_unresolved_path_witness :
  getIdForPath scenario "/nowhere" = Ok None /\
  main 0 ls scenario "/nowhere" = mkOutcome [] scenario (Ok tt) /\
  main 1 cloud scenario "/nowhere" = mkOutcome [] scenario TypeError /\
  main 1 local scenario "/nowhere" = mkOutcome [] scenario TypeError.
Proof.
  split; [reflexivity|]. apply (main_unresolved_path 0 scenario "/nowhere").
  reflexivity.
Defined.

(** C6.  When [markContentsAs] with value 1 returns on a folder, then
    [markContentsAs] with value 0 on the result returns as well; it leaves
    flag 0 on every row the first call wrote, every other row exactly as it
    was before the two calls, and, ids being unique, every row of an entity
    outside the subtree of the folder as it was.  On an acyclic ledger the
    first call returns on every folder of the ledger. *)
Theorem markContentsAs_cloud_then_local (db : ledger) (f : string) :
  (acyclic db -> getLatestForId db (Some f) <> None ->
   exists n db1, markContentsAs n db (Some f) 1 = Ok db1) /\
  (forall n db1, markContentsAs n db (Some f) 1 = Ok db1 ->
     exists ids db2,
       subtreeIds n db (Some f) = Ok ids /\ db1 = markRows 1 ids db /\
       markContentsAs n db1 (Some f) 0 = Ok db2 /\
       Forall2 (fun r r2 =>
                  sameButFlag r r2 /\
                  (In (r_id r) ids -> r_cloudOnly r2 = 0) /\
                  (~ In (r_id r) ids -> r2 = r) /\
                  (uniqueIds db -> ~ inSubtree db f (r_fileId r) -> r2 = r))
               db db2).
Proof.
  split.
  - intros A Hf. destruct (markContentsAs_returns db f 1 A Hf) as (n & ids & H).
    exists n, (markRows 1 ids db). apply (H n). apply Nat.le_refl.
  - intros n db1 H. apply markContentsAs_Ok in H. destruct H as (ids & E & ->).
    exists ids, (markRows 0 ids (markRows 1 ids db)).
    split; [assumption|]. split; [reflexivity|]. split.
    + apply markContentsAs_Ok. exists ids. split; [|reflexivity].
      rewrite (subtreeIds_frame n db _ _ (sameRows_markRows 1 ids db)).
      assumption.
    + unfold markRows. rewrite map_map. apply Forall2_map_same.
      intros r Hr.
      assert (Hout : uniqueIds db -> ~ inSubtree db f (r_fileId r) ->
                     ~ In (r_id r) ids).
      { intros U Hout Hin.
        destruct (reached_inSubtree db f _ (subtreeIds_reached db f n ids E _ Hin))
          as (d & Ed & Hid & Hsub & _).
        apply Hout.
        rewrite <- (uniqueIds_current db r _ d U Hr Ed (eq_sym Hid)) in Hsub.
        exact Hsub. }
      destruct (existsb (Z.eqb (r_id r)) ids) eqn:X.
      * assert (Hin : In (r_id r) ids).
        { apply existsb_exists in X. destruct X as (x & Hx & X).
          apply Z.eqb_eq in X. congruence. }
        simpl. rewrite X. simpl.
        split; [repeat split|]. split; [reflexivity|].
        split; [intros Hn; contradiction|].
        intros U O. exfalso. exact (Hout U O Hin).
      * assert (Hn : ~ In (r_id r) ids).
        { intros Hin. assert (Y : existsb (Z.eqb (r_id r)) ids = true); [|congruence].
          apply existsb_exists. exists (r_id r). split; [assumption|apply Z.eqb_refl]. }
        rewrite X.
        split; [apply sameButFlag_refl|]. split; [intros Hin; contradiction|].
        split; reflexivity.
Qed.

Lemma markContentsAs_cloud_then_local_witness :
  exists ids db2,
    subtreeIds 3 scenario (Some "1") = Ok ids /\
    markContentsAs 3 (markRows 1 [3; 1; 2] scenario) (Some "1") 0 = Ok db2 /\
    Forall2 (fun r r2 =>
               sameButFlag r r2 /\
               (In (r_id r) ids -> r_cloudOnly r2 = 0) /\
               (~ In (r_id r) ids -> r2 = r) /\
               (uniqueIds scenario -> ~ inSubtree scenario "1" (r_fileId r) -> r2 = r))
            scenario db2.
Proof.
  destruct (proj2 (markContentsAs_cloud_then_local scenario "1") 3%nat
                  (markRows 1 [3; 1; 2] scenario)) as (ids & db2 & E & _ & H).
  - reflexivity.
  - exists ids, db2. split; [exact E|exact H].
Defined.

(** C7.  When [markContentsAs] returns on a folder, a second call with the
    same value on the result returns the same ledger; so for value 1, the
    "cloud" operation.  On an acyclic ledger the first call returns on every
    folder of the ledger. *)
Theorem markContentsAs_idempotent (db : ledger) (f : string) (v : Z) :
  (acyclic db -> getLatestForId db (Some f) <> None ->
   exists n db1, markContentsAs n db (Some f) v = Ok db1) /\
  (forall n db1, markContentsAs n db (Some f) v = Ok db1 ->
                 markContentsAs n db1 (Some f) v = Ok db1) /\
  (forall n db1, performCloud n db (Some f) = Ok db1 ->
                 performCloud n db1 (Some f) = Ok db1).
Proof.
  assert (I : forall w n db1, markContentsAs n db (Some f) w = Ok db1 ->
                              markContentsAs n db1 (Some f) w = Ok db1).
  { intros w n db1 H. apply markContentsAs_Ok in H. destruct H as (ids & E & ->).
    apply markContentsAs_Ok. exists ids. split.
    - rewrite (subtreeIds_frame n db _ _ (sameRows_markRows w ids db)).
      assumption.
    - symmetry. apply markRows_idem. }
  split; [|split].
  - intros A Hf. destruct (markContentsAs_returns db f v A Hf) as (n & ids & H).
    exists n, (markRows v ids db). apply (H n). apply Nat.le_refl.
  - apply I.
  - apply I.
Qed.

Lemma markContentsAs_idempotent_witness :
  performCloud 3 (markRows 1 [3; 1; 2] scenario) (Some "1")
  = Ok (markRows 1 [3; 1; 2] scenario).
Proof.
  apply (proj2 (proj2 (markContentsAs_idempotent scenario "1" 1))).
  reflexivity.
Defined.

(** C8.  Whatever the action, the ledger a run leaves behind has the rows
    of the ledger it started from, in the same order and equal in every
    column but [cloudOnly]: no row is added or removed, and [ls] leaves the
    ledger as it is.  The same holds for each call of [markContentsAs] and
    of [performLocal] that returns. *)
Theorem ledger_rows_preserved (fuel : nat) (act : action) (db : ledger)
        (path : string) :
  sameRows db (stored (main fuel act db path)) /\
  List.length (stored (main fuel act db path)) = List.length db /\
  stored (main fuel ls db path) = db /\
  (forall f v db', markContentsAs fuel db f v = Ok db' -> sameRows db db') /\
  (forall f db', performLocal fuel db f = Ok db' -> sameRows db db').
Proof.
  assert (S : sameRows db (stored (main fuel act db path))).
  { unfold main. destruct (getIdForPath db path) as [baseId| |];
      try apply sameRows_refl.
    destruct act.
    - destruct (performLs db baseId); apply sameRows_refl.
    - destruct (performCloud fuel db baseId) as [db'| |] eqn:E;
        try apply sameRows_refl.
      apply (markContentsAs_sameRows _ _ _ _ _ E).
    - destruct (performLocal fuel db baseId) as [db'| |] eqn:E;
        try apply sameRows_refl.
      apply (performLocal_sameRows _ _ _ _ E). }
  split; [exact S|]. split; [|split; [|split]].
  - symmetry. apply (Forall2_length S).
  - apply main_ls_stored.
  - intros f v db'. apply markContentsAs_sameRows.
  - intros f db'. apply performLocal_sameRows.
Qed.

Lemma ledger_rows_preserved_witness :
  sameRows scenario (markRows 0 [3; 1; 2; 0] scenario).
Proof.
  apply (proj2 (proj2 (proj2 (proj2
           (ledger_rows_preserved 3 local scenario "/drive/A")))) (Some "1")).
  reflexivity.
Defined.

(** C9.  [performLs] never raises and writes nothing.  It prints the names
    of the folders among the live children of the folder, sorted, each
    followed by a slash, and then the names of the files among them, sorted,
    one name per line; when every live child is a file or a folder these are
    the names of all the live children.  On A of the example it prints B/
    and then file.txt. *)
Theorem performLs_listing (db : ledger) (f : option string) :
  exists content files folders,
    getFolderContent db f = Ok content /\
    Permutation folders (map fileName (filter isFolder content)) /\
    sortedNames folders /\
    Permutation files (map fileName (filter isFile content)) /\
    sortedNames files /\
    performLs db f = Ok (map (fun nm => (nm ++ "/")%string) folders ++ files) /\
    ((forall c, In c content -> isFile c = true \/ isFolder c = true) ->
     Permutation (folders ++ files) (map fileName content)) /\
    (forall fuel path, stored (main fuel ls db path) = db) /\
    main 0 ls scenario "/drive/A" = mkOutcome ["B/"; "file.txt"] scenario (Ok tt).
Proof.
  exists (liveChildren db f),
         (sort (map fileName (filter isFile (liveChildren db f)))),
         (sort (map fileName (filter isFolder (liveChildren db f)))).
  split; [apply getFolderContent_live|].
  split; [apply sort_perm|]. split; [apply sort_sorted|].
  split; [apply sort_perm|]. split; [apply sort_sorted|].
  split; [apply performLs_lines|]. split; [|split; [|reflexivity]].
  - intros H. rewrite !sort_perm. apply names_partition. assumption.
  - intros fuel path. apply main_ls_stored.
Qed.

Lemma performLs_listing_witness :
  exists lines, performLs scenario (Some "1") = Ok lines /\ List.length lines = 2%nat.
Proof.
  destruct (performLs_listing scenario (Some "1"))
    as (content & files & folders & Ec & _ & _ & _ & _ & El & Hall & _).
  exists (map (fun nm => (nm ++ "/")%string) folders ++ files).
  split; [exact El|].
  vm_compute in Ec. injection Ec as <-.
  rewrite length_app, length_map, <- length_app.
  rewrite (Permutation_length (Hall ltac:(intros c [<-|[<-|[]]];
                                         [left|right]; reflexivity))).
  reflexivity.
Defined.

(** C5.  On a well-formed ledger (unique row ids, no entity its own
    ancestor) [performLocal] returns on every folder [f] of the ledger.
    Afterwards the current row of every ancestor of [f], the drive root
    included, has flag 0; rows of entities that are neither ancestors of
    [f] nor in the subtree of [f] are as before, and no row changes in
    another column.  On the example, after "cloud" on A, "local" on A puts
    0 on the rows 1, 2, 3 and on the row of the root.  The walk that finds
    the ancestors starts at the current parent of [f] and collects the id
    of the current row of each ancestor until one has no row. *)
Theorem performLocal_ancestors (db : ledger) (f : string) :
  (wellFormed db -> getLatestForId db (Some f) <> None ->
   exists n db',
     (forall m, (n <= m)%nat -> performLocal m db (Some f) = Ok db') /\
     sameRows db db' /\
     (forall a r', ancestor db f a -> currentRow db' a r' -> r_cloudOnly r' = 0) /\
     Forall2 (fun r r' =>
                ~ ancestor db f (r_fileId r) -> ~ inSubtree db f (r_fileId r) ->
                r' = r) db db') /\
  (forall n d ids,
     getLatestForId db (Some f) = Some d ->
     ancestorLoop n db (parentFolderId d) [] = Ok ids ->
     forall x, In x ids <->
               exists a da, ancestor db f a /\
                            getLatestForId db (Some a) = Some da /\ id da = x) /\
  performLocal 3 (markRows 1 [3; 1; 2] scenario) (Some "1")
  = Ok (map (setCloudOnly 0) scenario).
Proof.
  split; [|split; [apply ancestorLoop_exact|reflexivity]].
  intros (U & A) Hf.
  destruct (markContentsAs_returns db f 0 A Hf) as (n1 & ids1 & H1).
  destruct A as (rank & R).
  destruct (getLatestForId db (Some f)) as [df|] eqn:Ef; [clear Hf|congruence].
  destruct (ancestorLoop_total db rank R (S (rank f)) (parentFolderId df))
    as (ids2 & E2).
  { destruct (parentFolderId df) as [g|] eqn:P; [|lia].
    pose proof (R _ _ _ Ef P). lia. }
  exists (Nat.max n1 (S (rank f))), (markRows 0 (ids1 ++ ids2) db).
  assert (E1 : subtreeIds n1 db (Some f) = Ok ids1).
  { apply (H1 n1). apply Nat.le_refl. }
  split; [|split; [|split]].
  - intros m Hm. apply performLocal_Ok. exists ids1, df, ids2.
    split; [apply (H1 m); lia|]. split; [assumption|]. split; [|reflexivity].
    apply (ancestorLoop_fuel db (S (rank f))); [lia|assumption].
  - apply sameRows_markRows.
  - intros a r' Ha (Hr' & Er').
    rewrite (getLatestForId_frame db _ _ (sameRows_markRows 0 (ids1 ++ ids2) db))
      in Er'.
    assert (Hin : In (r_id r') ids2).
    { apply (ancestorLoop_visits db _ _ _ E2 a (rowToDict r')); [|assumption].
      destruct (ancestor_bottom db f a Ha) as (d & Ed & Hd).
      rewrite Ef in Ed. injection Ed as <-.
      destruct Hd as [P|(c & P & Hc)]; [left; assumption|].
      right. exists c. auto. }
    unfold markRows in Hr'. apply in_map_iff in Hr'. destruct Hr' as (r & <- & Hr).
    destruct (existsb (Z.eqb (r_id r)) (ids1 ++ ids2)) eqn:X; [reflexivity|].
    exfalso. assert (Y : existsb (Z.eqb (r_id r)) (ids1 ++ ids2) = true);
      [|congruence].
    apply existsb_exists. exists (r_id r). split; [|apply Z.eqb_refl].
    apply in_or_app. right. exact Hin.
  - unfold markRows. apply Forall2_map_same. intros r Hr Hanc Hsub.
    apply (markRows_row 0 (ids1 ++ ids2) r). intros Hin.
    apply in_app_or in Hin. destruct Hin as [Hin|Hin].
    + destruct (reached_inSubtree db f _ (subtreeIds_reached db f n1 ids1 E1 _ Hin))
        as (d & Ed & Hid & Hs & _).
      apply Hsub.
      rewrite <- (uniqueIds_current db r _ d U Hr Ed (eq_sym Hid)) in Hs.
      exact Hs.
    + destruct (ancestorLoop_only db _ _ _ E2 _ Hin) as (a & d & Ed & Hid & Hp).
      apply Hanc.
      pose proof (uniqueIds_current db r _ d U Hr Ed (eq_sym Hid)) as Hd.
      pose proof (getLatestForId_fileId _ _ _ Ed) as Fa. injection Fa as Fa.
      assert (Fr : r_fileId r = a).
      { rewrite Fa, <- Hd. reflexivity. }
      rewrite Fr.
      destruct Hp as [P|(b & P & Hb)].
      * eapply anc_parent; eassumption.
      * eapply ancestor_trans; [|exact Hb]. eapply anc_parent; eassumption.
Qed.

Lemma scenario_wellFormed : wellFormed scenario.
Proof.
  split.
  - unfold uniqueIds. simpl.
    repeat constructor; simpl; intuition discriminate.
  - exists (fun e => if String.eqb e "R" then 0%nat
                     else if String.eqb e "1" then 1%nat else 2%nat).
    intros e d g E P.
    destruct (getLatestForId_row _ _ _ E) as (r & Hr & ->).
    pose proof (getLatestForId_fileId _ _ _ E) as F. injection F as ->.
    simpl in Hr. destruct Hr as [<-|[<-|[<-|[<-|[]]]]];
      simpl in P; try discriminate; injection P as <-; simpl; lia.
Qed.

Lemma performLocal_ancestors_witness :
  exists n db',
    performLocal n scenario (Some "1") = Ok db' /\
    (forall r', currentRow db' "R" r' -> r_cloudOnly r' = 0).
Proof.
  destruct (proj1 (performLocal_ancestors scenario "1") scenario_wellFormed)
    as (n & db' & H & _ & Hanc & _).
  - discriminate.
  - exists n, db'. split; [apply (H n); apply Nat.le_refl|].
    intros r'. apply Hanc.
    apply (anc_parent scenario "1" "R"
             (mkEntry 1 "folder" "1" "A" "/drive/A" (Some "R"))); reflexivity.
Defined.

(** C10.  A live child whose type is neither file nor folder is left out
    of the listing: [performLs] prints what it would print without it.
    [markContentsAs] on a folder other than that entity does not write any
    row of the entity (ids being unique), with whatever value, and on a
    well-formed ledger, called on a folder above the entity, it writes no
    current row of an entity below it either: it does not descend into
    it. *)
Theorem other_types_skipped (db : ledger) (f : string) (c : entry) :
  In c (liveChildren db (Some f)) -> isFile c = false -> isFolder c = false ->
  (exists pre post,
     getFolderContent db (Some f) = Ok (pre ++ c :: post) /\
     performLs db (Some f) = Ok (lsLines (pre ++ post))) /\
  (forall n g v db',
     uniqueIds db -> fileId c <> g ->
     markContentsAs n db (Some g) v = Ok db' ->
     exists ids,
       subtreeIds n db (Some g) = Ok ids /\ ~ In (id c) ids /\
       Forall2 (fun r r' => r_fileId r = fileId c -> r' = r) db db') /\
  (forall n g ids e d,
     wellFormed db -> ancestor db (fileId c) g ->
     subtreeIds n db (Some g) = Ok ids ->
     ancestor db e (fileId c) -> getLatestForId db (Some e) = Some d ->
     ~ In (id d) ids).
Proof.
  intros Hc Tf Td.
  pose proof (proj1 (liveChildren_In _ _ _) Hc) as (Ec & _).
  split; [|split].
  - destruct (in_split _ _ Hc) as (pre & post & E). exists pre, post.
    rewrite getFolderContent_live, performLs_lines, E.
    split; [reflexivity|]. rewrite (lsLines_omit pre post c Tf Td). reflexivity.
  - intros n g v db' U Hg H. apply markContentsAs_Ok in H.
    destruct H as (ids & E & ->). exists ids. split; [assumption|].
    split.
    + intros Hin. apply (other_not_reached db g c U Ec Tf Td Hg).
      apply (subtreeIds_reached db g n ids E). assumption.
    + unfold markRows. apply Forall2_map_same. intros r Hr Fr.
      apply (markRows_row v ids r). intros Hin.
      destruct (getLatestForId_row _ _ _ Ec) as (rc & Hrc & Erc).
      pose proof (subtreeIds_reached db g n ids E _ Hin) as R.
      destruct (reached_inSubtree db g _ R) as (d & Ed & Hid & _).
      pose proof (uniqueIds_current db r _ d U Hr Ed (eq_sym Hid)) as Hd.
      assert (Dc : d = c).
      { assert (Fd : fileId d = fileId c) by (rewrite <- Hd; exact Fr).
        rewrite Fd in Ed. congruence. }
      apply (other_not_reached db g c U Ec Tf Td Hg).
      rewrite <- Dc, Hid. exact R.
  - intros n g ids e d (U & (rank & R)) Hcg E He Ed Hin.
    pose proof (acyclic_ancestor db rank R _ _ Hcg) as Rcg.
    pose proof (getLatestForId_fileId _ _ _ Ed) as Fe. injection Fe as Fe.
    apply (below_other_not_reached db g c d U Ec Td).
    + intros X. rewrite X in Rcg. lia.
    + intros [X|X].
      * rewrite X in Rcg. lia.
      * pose proof (acyclic_ancestor db rank R _ _ X). lia.
    + rewrite <- Fe. assumption.
    + rewrite <- Fe. assumption.
    + apply (subtreeIds_reached db g n ids E). assumption.
Qed.

Lemma other_types_skipped_witness :
  performLs withLink (Some "1") = Ok ["a.txt"] /\
  exists ids,
    subtreeIds 2 withLink (Some "1") = Ok ids /\ ~ In 2 ids /\
    Forall2 (fun r r' => r_fileId r = "2" -> r' = r)
            withLink (markRows 1 [1; 3] withLink).
Proof.
  pose (c := mkEntry 2 "link" "2" "ln" "/drive/A/ln" (Some "1")).
  assert (Hc : In c (liveChildren withLink (Some "1"))).
  { simpl. left. reflexivity. }
  destruct (other_types_skipped withLink "1" c Hc eq_refl eq_refl)
    as ((pre & post & Ec & El) & Hm & _).
  split.
  - reflexivity.
  - apply (Hm 2%nat "1" 1 (markRows 1 [1; 3] withLink)).
    + unfold uniqueIds. simpl.
      repeat constructor; simpl; intuition discriminate.
    + discriminate.
    + reflexivity.
Defined.

(** * Further properties of the script *)

(** ** Locating the database file *)

Section Locate.

Lemma uptoLastSep_length (p : string) :
  (String.length (uptoLastSep p) <= String.length p)%nat /\
  (String.length (uptoLastSep p) = String.length p -> uptoLastSep p = p).
Proof.
  induction p as [|c p [IH1 IH2]]; simpl; [auto|].
  destruct (hasSep p); simpl.
  - split; [lia|]. intros H. rewrite IH2; [reflexivity|lia].
  - destruct (isSep c); simpl.
    + split; [lia|]. intros H. destruct p; [reflexivity|discriminate].
    + split; [lia|discriminate].
Qed.

Lemma rstripSep_length (s : string) :
  (String.length (rstripSep s) <= String.length s)%nat /\
  (String.length (rstripSep s) = String.length s -> rstripSep s = s).
Proof.
  induction s as [|c s [IH1 IH2]]; simpl; [auto|].
  destruct (rstripSep s) as [|c' t] eqn:E.
  - destruct (isSep c); simpl in *.
    + split; [lia|discriminate].
    + split; [lia|]. intros H. rewrite IH2; [reflexivity|lia].
  - simpl in *. split; [lia|]. intros H. rewrite IH2; [reflexivity|lia].
Qed.

Lemma dirname_length (p : string) :
  (String.length (dirname p) <= String.length p)%nat /\
  (String.length (dirname p) = String.length p -> dirname p = p).
Proof.
  unfold dirname.
  destruct (uptoLastSep_length p) as [U1 U2].
  destruct (rstripSep_length (uptoLastSep p)) as [R1 R2].
  destruct (negb (String.eqb (uptoLastSep p) "") && negb (allSep (uptoLastSep p))).
  - split; [lia|]. intros H. rewrite R2; [apply U2|]; lia.
  - split; assumption.
Qed.

Lemma dirname_shorter (p : string) :
  dirname p <> p -> (String.length (dirname p) < String.length p)%nat.
Proof.
  intros H. destruct (dirname_length p) as [L1 L2].
  destruct (Nat.eq_dec (String.length (dirname p)) (String.length p)) as [E|E].
  - exfalso. apply H, L2, E.
  - lia.
Qed.

Lemma getDbFile_S (n : nat) (ex : string -> bool) (path : string) :
  getDbFile (S n) ex path =
  if ex (join path DB_FILE) then Ok (Some (join path DB_FILE))
  else if String.eqb (dirname path) path then Ok None
       else getDbFile n ex (dirname path).
Proof. reflexivity. Qed.

Lemma getDbFile_returns (ex : string -> bool) (n : nat) :
  forall path, (String.length path < n)%nat ->
               exists r, getDbFile n ex path = Ok r.
Proof.
  induction n as [|n IH]; intros path H; [lia|].
  rewrite getDbFile_S. destruct (ex (join path DB_FILE)); [eexists; reflexivity|].
  destruct (String.eqb (dirname path) path) eqn:E; [eexists; reflexivity|].
  apply String.eqb_neq in E. apply IH.
  pose proof (dirname_shorter path E). lia.
Qed.

Lemma getDbFile_Some (ex : string -> bool) (n : nat) :
  forall path trial, getDbFile n ex path = Ok (Some trial) ->
    exists k, trial = join (Nat.iter k dirname path) DB_FILE /\
              ex trial = true /\
              forall j, (j < k)%nat ->
                        ex (join (Nat.iter j dirname path) DB_FILE) = false.
Proof.
  induction n as [|n IH]; intros path trial; [discriminate|].
  rewrite getDbFile_S. destruct (ex (join path DB_FILE)) eqn:X.
  - intros H. injection H as <-. exists 0%nat. repeat split; [assumption|].
    intros j Hj. lia.
  - destruct (String.eqb (dirname path) path); [discriminate|].
    intros H. destruct (IH _ _ H) as (k & -> & Hex & Hlt).
    exists (S k). rewrite Nat.iter_succ_r. repeat split; [assumption|].
    intros [|j] Hj; [exact X|]. rewrite Nat.iter_succ_r. apply Hlt. lia.
Qed.

Lemma iter_fixed (p : string) (k : nat) : dirname p = p -> Nat.iter k dirname p = p.
Proof.
  intros H. induction k as [|k IH]; simpl; [reflexivity|]. rewrite IH. exact H.
Qed.

Lemma getDbFile_None (ex : string -> bool) (n : nat) :
  forall path, getDbFile n ex path = Ok None ->
               forall k, ex (join (Nat.iter k dirname path) DB_FILE) = false.
Proof.
  induction n as [|n IH]; intros path; [discriminate|].
  rewrite getDbFile_S. destruct (ex (join path DB_FILE)) eqn:X; [discriminate|].
  destruct (String.eqb (dirname path) path) eqn:E.
  - apply String.eqb_eq in E. intros _ k. rewrite (iter_fixed path k E). exact X.
  - intros H [|k]; [exact X|]. rewrite Nat.iter_succ_r. apply (IH _ H).
Qed.

End Locate.

(** X1.  The search for the database file ends on every path and on every
    file system: [os.path.dirname] returns its argument or a shorter
    string, so one round of the loop per character of the path, and one
    more, is enough. *)
Theorem getDbFile_terminates (ex : string -> bool) (path : string) :
  exists r, forall n, (String.length path < n)%nat -> getDbFile n ex path = Ok r.
Proof.
  destruct (getDbFile_returns ex (S (String.length path)) path) as (r & E); [lia|].
  exists r. intros n Hn.
  assert (M : forall m p r, getDbFile m ex p = Ok r -> getDbFile (S m) ex p = Ok r).
  { clear. induction m as [|m IH]; intros p r; [discriminate|].
    rewrite (getDbFile_S (S m)), (getDbFile_S m).
    destruct (ex (join p DB_FILE)); [auto|].
    destruct (String.eqb (dirname p) p); [auto|]. apply IH. }
  induction Hn as [|n Hn IH]; [exact E|]. apply M, IH.
Qed.

Lemma getDbFile_terminates_witness :
  exists r, getDbFile 11 driveOnly "/drive/A/B" = Ok r.
Proof.
  destruct (getDbFile_terminates driveOnly "/drive/A/B") as (r & H).
  exists r. apply H. simpl. lia.
Defined.

(** X2.  When the search returns a file, that file exists and is the
    database file of the path itself or of one of its parent folders, and
    no folder nearer to the path has one; when it returns [None], neither
    the path nor any of its parents, up to the root, has one. *)
Theorem getDbFile_nearest (ex : string -> bool) (n : nat) (path : string) :
  (forall trial, getDbFile n ex path = Ok (Some trial) ->
     exists k, trial = join (Nat.iter k dirname path) DB_FILE /\
               ex trial = true /\
               forall j, (j < k)%nat ->
                         ex (join (Nat.iter j dirname path) DB_FILE) = false) /\
  (getDbFile n ex path = Ok None ->
   forall k, ex (join (Nat.iter k dirname path) DB_FILE) = false).
Proof.
  split; [apply getDbFile_Some|apply getDbFile_None].
Qed.

Lemma getDbFile_nearest_witness :
  exists k, "/drive/.ardrive-cli.db" = join (Nat.iter k dirname "/drive/A/B") DB_FILE /\
            driveOnly "/drive/.ardrive-cli.db" = true /\
            forall j, (j < k)%nat ->
                      driveOnly (join (Nat.iter j dirname "/drive/A/B") DB_FILE) = false.
Proof.
  apply (proj1 (getDbFile_nearest driveOnly 5 "/drive/A/B")). reflexivity.
Defined.

(** ** When the operations raise, and when they return *)

Section Raises.

Variable db : ledger.

Lemma forEach_no_TypeError {A S : Type} (l : list A) (body : S -> A -> result S) :
  (forall s a, In a l -> body s a <> TypeError) ->
  forall s, forEach l s body <> TypeError.
Proof.
  induction l as [|a l IH]; intros Hb s; simpl; [discriminate|].
  destruct (body s a) as [s'| |] eqn:E; simpl.
  - apply IH. intros s0 a0 Ha. apply Hb. right. assumption.
  - exfalso. apply (Hb s a); [left; reflexivity|assumption].
  - discriminate.
Qed.

Lemma subtreeIds_TypeError (n : nat) :
  forall f, subtreeIds n db f = TypeError <->
            n <> O /\ getLatestForId db f = None.
Proof.
  induction n as [|n IH]; intros f.
  - simpl. split; [discriminate|]. intros [H _]. congruence.
  - rewrite subtreeIds_S.
    destruct (getLatestForId db f) as [d|] eqn:E; cbn [subscript].
    + rewrite getFolderContent_live, !bind_Ok. split; [|intros [_ H]; discriminate].
      intros H. exfalso.
      destruct (forEach (liveChildren db f) ([], [id d]) _) as [st| |] eqn:L;
        try discriminate.
      revert L. apply forEach_no_TypeError.
      intros [below own] c Hc. apply liveChildren_In in Hc. destruct Hc as (Ec & _).
      destruct (isFile c); [discriminate|]. destruct (isFolder c); [|discriminate].
      destruct (subtreeIds n db (Some (fileId c))) as [sub| |] eqn:Es;
        try discriminate.
      apply IH in Es. destruct Es as [_ Es]. congruence.
    + split; [|reflexivity]. intros _. split; [discriminate|reflexivity].
Qed.

Lemma ancestorLoop_no_TypeError (n : nat) :
  forall p acc, ancestorLoop n db p acc <> TypeError.
Proof.
  induction n as [|n IH]; intros p acc; [discriminate|].
  rewrite ancestorLoop_S. destruct (getLatestForId db p); [apply IH|discriminate].
Qed.

Lemma performLocal_returns (f : string) :
  acyclic db -> getLatestForId db (Some f) <> None ->
  exists n ids, forall m, (n <= m)%nat ->
    performLocal m db (Some f) = Ok (markRows 0 ids db).
Proof.
  intros A Hf.
  destruct (markContentsAs_returns db f 0 A Hf) as (n1 & ids1 & H1).
  destruct A as (rank & R).
  destruct (getLatestForId db (Some f)) as [df|] eqn:Ef; [clear Hf|congruence].
  destruct (ancestorLoop_total db rank R (S (rank f)) (parentFolderId df))
    as (ids2 & E2).
  { destruct (parentFolderId df) as [g|] eqn:P; [|lia].
    pose proof (R _ _ _ Ef P). lia. }
  exists (Nat.max n1 (S (rank f))), (ids1 ++ ids2).
  intros m Hm. apply performLocal_Ok. exists ids1, df, ids2.
  split; [apply (H1 m); lia|]. split; [assumption|]. split; [|reflexivity].
  apply (ancestorLoop_fuel db (S (rank f))); [lia|assumption].
Qed.

Lemma markContentsAs_TypeError (n : nat) (f : option string) (w : Z) :
  markContentsAs (S n) db f w = TypeError <-> getLatestForId db f = None.
Proof.
  rewrite markContentsAs_subtreeIds.
  pose proof (subtreeIds_TypeError (S n) f) as T.
  destruct (subtreeIds (S n) db f) as [ids| |]; cbn [bind].
  - split; [discriminate|]. intros H.
    assert (X : @Ok (list Z) ids = TypeError)
      by (apply T; split; [discriminate|exact H]).
    discriminate.
  - split; [intros _; apply T; reflexivity|reflexivity].
  - split; [discriminate|]. intros H.
    assert (X : @OutOfFuel (list Z) = TypeError)
      by (apply T; split; [discriminate|exact H]).
    discriminate.
Qed.

End Raises.

Section RaisesLocal.

Lemma performLocal_TypeError (db : ledger) (n : nat) (f : option string) :
  performLocal (S n) db f = TypeError <-> getLatestForId db f = None.
Proof.
  unfold performLocal. split.
  - intros H. destruct (markContentsAs (S n) db f 0) as [db1| |] eqn:E1;
      cbn [bind] in H; [|apply (markContentsAs_TypeError db n f 0); exact E1
                        |discriminate].
    pose proof (markContentsAs_sameRows _ _ _ _ _ E1) as S1.
    rewrite (getLatestForId_frame _ _ f S1) in H.
    destruct (getLatestForId db f) as [d|]; [|reflexivity].
    cbn [subscript bind] in H. exfalso.
    destruct (ancestorLoop (S n) db1 (parentFolderId d) []) as [ids| |] eqn:E2;
      cbn [bind] in H; try discriminate.
    exact (ancestorLoop_no_TypeError db1 _ _ _ E2).
  - intros H. rewrite (proj2 (markContentsAs_TypeError db n f 0) H). reflexivity.
Qed.

End RaisesLocal.

(** X3.  [markContentsAs] and [performLocal] raise the [TypeError] of
    [None["id"]] exactly when the entity they are called on has no row in
    the ledger (with [None] for it included): inside the recursion and the
    ancestor walk every subscript is on a row that exists. *)
Theorem TypeError_only_at_base (n : nat) (db : ledger) (f : option string) (v : Z) :
  (markContentsAs (S n) db f v = TypeError <-> getLatestForId db f = None) /\
  (performLocal (S n) db f = TypeError <-> getLatestForId db f = None).
Proof.
  split; [apply markContentsAs_TypeError|apply performLocal_TypeError].
Qed.

Lemma TypeError_only_at_base_witness :
  markContentsAs 1 scenario (Some "nobody") 1 = TypeError /\
  performLocal 1 scenario None = TypeError.
Proof.
  split.
  - apply (proj1 (TypeError_only_at_base 0 scenario (Some "nobody") 1)).
    reflexivity.
  - apply (proj2 (TypeError_only_at_base 0 scenario None 1)). reflexivity.
Defined.

(** X4.  On an entity that is the current parent of no entity (an empty
    folder, or a file) [markContentsAs] returns after one call and writes
    the flag on the rows that carry the id of the current row of the
    entity, and on no other; [performLs] prints nothing for it. *)
Theorem markContentsAs_leaf (n : nat) (db : ledger) (f : string)
        (d : entry) (v : Z) :
  getLatestForId db (Some f) = Some d ->
  (forall e de, getLatestForId db (Some e) = Some de ->
                parentFolderId de <> Some f) ->
  markContentsAs (S n) db (Some f) v = Ok (update v db (id d)) /\
  performLs db (Some f) = Ok [].
Proof.
  intros E C.
  assert (L : liveChildren db (Some f) = []).
  { destruct (liveChildren db (Some f)) as [|c l] eqn:X; [reflexivity|].
    assert (H : In c (liveChildren db (Some f))) by (rewrite X; left; reflexivity).
    apply liveChildren_In in H. destruct H as (Ec & Pc & _).
    exfalso. exact (C _ _ Ec Pc). }
  split.
  - rewrite markContentsAs_S, E, getFolderContent_live, L. reflexivity.
  - rewrite performLs_lines, L. reflexivity.
Qed.

Lemma markContentsAs_leaf_witness :
  markContentsAs 1 scenario (Some "2") 1 = Ok (update 1 scenario 2) /\
  performLs scenario (Some "2") = Ok [].
Proof.
  apply (markContentsAs_leaf 0 scenario "2"
           (mkEntry 2 "file" "2" "file.txt" "/drive/A/file.txt" (Some "1")));
    [reflexivity|].
  intros e de E P.
  destruct (getLatestForId_row _ _ _ E) as (r & Hr & ->).
  simpl in Hr. destruct Hr as [<-|[<-|[<-|[<-|[]]]]]; discriminate.
Defined.

(** X5.  On a path that resolves, no action ends in a [TypeError]; and on
    an acyclic ledger every action on such a path completes, for every
    fuel from some bound on. *)
Theorem main_resolved_completes (db : ledger) (path : string) (e : string)
        (act : action) :
  getIdForPath db path = Ok (Some e) ->
  (forall fuel, status (main fuel act db path) <> TypeError) /\
  (acyclic db ->
   exists n, forall m, (n <= m)%nat -> status (main m act db path) = Ok tt).
Proof.
  intros H.
  assert (He : getLatestForId db (Some e) <> None).
  { destruct (getIdForPath_cases db path) as [(E & _)|(e' & d & E & Ed & _)];
      congruence. }
  split.
  - intros fuel. unfold main. rewrite H. destruct act.
    + rewrite performLs_lines. discriminate.
    + unfold performCloud.
      destruct (markContentsAs fuel db (Some e) 1) as [db'| |] eqn:E;
        cbn; try discriminate.
      destruct fuel as [|k]; [discriminate|].
      apply markContentsAs_TypeError in E. contradiction.
    + destruct (performLocal fuel db (Some e)) as [db'| |] eqn:E;
        cbn; try discriminate.
      destruct fuel as [|k]; [discriminate|].
      apply performLocal_TypeError in E. contradiction.
  - intros A. unfold main. rewrite H. destruct act.
    + exists 0%nat. intros m _. rewrite performLs_lines. reflexivity.
    + destruct (markContentsAs_returns db e 1 A He) as (n & ids & Hn).
      exists n. intros m Hm. unfold performCloud.
      rewrite (proj2 (Hn m Hm)). reflexivity.
    + destruct (performLocal_returns db e A He) as (n & ids & Hn).
      exists n. intros m Hm. rewrite (Hn m Hm). reflexivity.
Qed.

Lemma main_resolved_completes_witness :
  exists n, forall m, (n <= m)%nat ->
                      status (main m local scenario "/drive/A") = Ok tt.
Proof.
  apply (proj2 (main_resolved_completes scenario "/drive/A" "1" local eq_refl)).
  exact (proj2 scenario_wellFormed).
Defined.

(** ** What the subtree mutator writes, exactly *)

Section Exact.

Variable db : ledger.

Lemma isFolder_isFile (c : entry) : isFolder c = true -> isFile c = false.
Proof.
  intros H. destruct (isFile c) eqn:F; [|reflexivity].
  rewrite (isFile_isFolder c F) in H. discriminate.
Qed.

Lemma collect_loop (n : nat) (l : list entry) :
  forall s s',
    forEach l s
      (fun (st : list Z * list Z) c =>
         let '(below, own) := st in
         if isFile c then Ok (below, own ++ [id c])
         else if isFolder c
         then sub <- subtreeIds n db (Some (fileId c)) ;;
              Ok (below ++ sub, own)
         else Ok (below, own)) = Ok s' ->
    incl (fst s) (fst s') /\ incl (snd s) (snd s') /\
    forall c, In c l ->
      (isFile c = true -> In (id c) (snd s')) /\
      (isFolder c = true ->
       exists sub, subtreeIds n db (Some (fileId c)) = Ok sub /\ incl sub (fst s')).
Proof.
  induction l as [|a l IH]; intros [below own] s'; simpl.
  - intros H. injection H as <-.
    split; [apply incl_refl|]. split; [apply incl_refl|]. intros c [].
  - destruct (isFile a) eqn:Fa.
    + simpl. intros H. destruct (IH _ _ H) as (I1 & I2 & I3). simpl in I1, I2.
      split; [assumption|]. split.
      * intros x Hx. apply I2. apply in_or_app. left. assumption.
      * intros c [<-|Hc]; [|apply I3; assumption]. split.
        -- intros _. apply I2. apply in_or_app. right. left. reflexivity.
        -- intros Tc. rewrite (isFolder_isFile _ Tc) in Fa. discriminate.
    + destruct (isFolder a) eqn:Ta.
      * destruct (subtreeIds n db (Some (fileId a))) as [sub| |] eqn:Es;
          simpl; try discriminate.
        intros H. destruct (IH _ _ H) as (I1 & I2 & I3). simpl in I1, I2.
        split; [intros x Hx; apply I1; apply in_or_app; left; assumption|].
        split; [assumption|].
        intros c [<-|Hc]; [|apply I3; assumption]. split.
        -- intros Tc. congruence.
        -- intros _. exists sub. split; [assumption|].
           intros x Hx. apply I1. apply in_or_app. right. assumption.
      * simpl. intros H. destruct (IH _ _ H) as (I1 & I2 & I3). simpl in I1, I2.
        split; [assumption|]. split; [assumption|].
        intros c [<-|Hc]; [|apply I3; assumption]. split; congruence.
Qed.

Lemma subtreeIds_child (n : nat) (g : string) (ids : list Z) (c : entry) :
  subtreeIds (S n) db (Some g) = Ok ids ->
  In c (liveChildren db (Some g)) ->
  (isFile c = true -> In (id c) ids) /\
  (isFolder c = true ->
   exists sub, subtreeIds n db (Some (fileId c)) = Ok sub /\ incl sub ids).
Proof.
  rewrite subtreeIds_S.
  destruct (getLatestForId db (Some g)) as [dg|]; [|discriminate].
  cbn [subscript]. rewrite getFolderContent_live, !bind_Ok.
  destruct (forEach (liveChildren db (Some g)) ([], [id dg]) _)
    as [[below own]| |] eqn:L; try discriminate.
  cbn [bind fst snd]. intros H Hc. injection H as <-.
  destruct (collect_loop n _ _ _ L) as (_ & _ & I3).
  destruct (I3 c Hc) as (If & Id). cbn [fst snd] in *. split.
  - intros T. apply in_or_app. right. apply If. assumption.
  - intros T. destruct (Id T) as (sub & Es & Hs). exists sub.
    split; [assumption|]. intros x Hx. apply in_or_app. left. apply Hs. assumption.
Qed.

Lemma subtreeIds_visited (f g : string) :
  visited db f g ->
  forall n ids, subtreeIds n db (Some f) = Ok ids ->
    exists m ids', (m <= n)%nat /\ subtreeIds m db (Some g) = Ok ids' /\
                   incl ids' ids.
Proof.
  induction 1 as [|h c V IH Hc Tc]; intros n ids E.
  - exists n, ids. split; [lia|]. split; [assumption|apply incl_refl].
  - destruct (IH n ids E) as (m & ids' & Hm & Em & Hi).
    destruct m as [|m]; [discriminate|].
    destruct (proj2 (subtreeIds_child m h ids' c Em Hc) Tc) as (sub & Es & Hs).
    exists m, sub. split; [lia|]. split; [assumption|].
    intros x Hx. apply Hi, Hs, Hx.
Qed.

Lemma reached_collected (f : string) (n : nat) (ids : list Z) (x : Z) :
  subtreeIds n db (Some f) = Ok ids -> reached db f x -> In x ids.
Proof.
  intros E (d & Ed & <- & [V|(g & V & Hc & Tf)]).
  - destruct (subtreeIds_visited f _ V n ids E) as (m & ids' & _ & Em & Hi).
    destruct (subtreeIds_base db m _ ids' Em) as (d0 & Ed0 & Hin).
    apply Hi. congruence.
  - destruct (subtreeIds_visited f _ V n ids E) as (m & ids' & _ & Em & Hi).
    destruct m as [|m]; [discriminate|].
    apply Hi. apply (proj1 (subtreeIds_child m g ids' d Em Hc) Tf).
Qed.

Lemma folderCycle_diverges (f : string) :
  folderCycle db f -> forall n ids, subtreeIds n db (Some f) <> Ok ids.
Proof.
  intros (g & c & V & Hc & Tc & Fc) n.
  induction n as [n IH] using (well_founded_induction Wf_nat.lt_wf).
  intros ids E.
  destruct (subtreeIds_visited f g V n ids E) as (m & ids' & Hm & Em & _).
  destruct m as [|m]; [discriminate|].
  destruct (proj2 (subtreeIds_child m g ids' c Em Hc) Tc) as (sub & Es & _).
  rewrite Fc in Es. apply (IH m) in Es; [assumption|lia].
Qed.

Lemma ancestorCycle_diverges (n : nat) :
  forall a acc, ancestor db a a -> ancestorLoop n db (Some a) acc = OutOfFuel.
Proof.
  induction n as [|n IH]; intros a acc Ha; [reflexivity|].
  rewrite ancestorLoop_S.
  destruct (ancestor_bottom db a a Ha) as (d & Ed & Hd). rewrite Ed.
  destruct Hd as [P|(c & P & Hc)]; rewrite P.
  - apply IH. assumption.
  - apply IH. eapply ancestor_trans; [exact Hc|]. eapply anc_parent; eassumption.
Qed.

End Exact.

(** X6.  A call of [markContentsAs] that returns has written [value] on
    exactly the rows whose id is the id of the current row of a folder it
    visits (the folder it is called on, and from a folder the live children
    of type folder) or of a live child of type file of such a folder; every
    other row is as before. *)
Theorem markContentsAs_writes (n : nat) (db db' : ledger) (f : string) (v : Z) :
  markContentsAs n db (Some f) v = Ok db' ->
  Forall2 (fun r r' =>
             (reached db f (r_id r) -> r' = setCloudOnly v r) /\
             (~ reached db f (r_id r) -> r' = r)) db db'.
Proof.
  intros H. apply markContentsAs_Ok in H. destruct H as (ids & E & ->).
  unfold markRows. apply Forall2_map_same. intros r _. split.
  - intros R. apply (markRows_row v ids r).
    apply (reached_collected db f n ids _ E R).
  - intros R. apply (markRows_row v ids r). intros Hin. apply R.
    apply (subtreeIds_reached db f n ids E _ Hin).
Qed.

Lemma markContentsAs_writes_witness :
  Forall2 (fun r r' =>
             (reached scenario "1" (r_id r) -> r' = setCloudOnly 1 r) /\
             (~ reached scenario "1" (r_id r) -> r' = r))
          scenario (markRows 1 [3; 1; 2] scenario).
Proof.
  apply (markContentsAs_writes 3 scenario _ "1" 1). reflexivity.
Defined.

(** X7.  When the folders below [f] lead back to [f], [markContentsAs] on
    [f] does not return, whatever the fuel: "cloud" and "local" on a path
    that resolves to [f] run out of stack, and the ledger on disk is the
    one before the run. *)
Theorem folderCycle_never_returns (db : ledger) (f : string) (path : string) :
  folderCycle db f ->
  (forall n v, markContentsAs n db (Some f) v = OutOfFuel) /\
  (getIdForPath db path = Ok (Some f) ->
   forall n, main n cloud db path = mkOutcome [] db OutOfFuel /\
             main n local db path = mkOutcome [] db OutOfFuel).
Proof.
  intros C.
  assert (M : forall n v, markContentsAs n db (Some f) v = OutOfFuel).
  { intros n v. rewrite markContentsAs_subtreeIds.
    destruct (subtreeIds n db (Some f)) as [ids| |] eqn:E; [| |reflexivity].
    - exfalso. exact (folderCycle_diverges db f C n ids E).
    - exfalso. apply subtreeIds_TypeError in E. destruct E as [_ E].
      destruct C as (g & c & _ & Hc & _ & Fc).
      apply liveChildren_In in Hc. destruct Hc as (Ec & _). congruence. }
  split; [exact M|]. intros H n. unfold main, performCloud, performLocal.
  rewrite H, !M. split; reflexivity.
Qed.

Lemma folderCycle_never_returns_witness :
  main 1000 cloud selfParent "/a" = mkOutcome [] selfParent OutOfFuel /\
  main 1000 local selfParent "/a" = mkOutcome [] selfParent OutOfFuel.
Proof.
  apply (proj2 (folderCycle_never_returns selfParent "a" "/a"
                  (ex_intro _ "a" (ex_intro _ (mkEntry 0 "folder" "a" "a" "/a" (Some "a"))
                     (conj (v_base selfParent "a")
                           (conj (or_introl eq_refl) (conj eq_refl eq_refl))))))).
  reflexivity.
Defined.

(** X8.  When [f] is its own ancestor the walk up the parents never ends:
    [performLocal] on [f] returns for no fuel, so "local" on a path that
    resolves to [f] leaves the ledger on disk as it was. *)
Theorem ancestorCycle_never_returns (db : ledger) (f : string) (path : string) :
  ancestor db f f ->
  (forall n db', performLocal n db (Some f) <> Ok db') /\
  (getIdForPath db path = Ok (Some f) ->
   forall n, main n local db path = mkOutcome [] db OutOfFuel).
Proof.
  intros C.
  assert (P : forall n, performLocal n db (Some f) = OutOfFuel).
  { intros n. destruct n as [|n]; [reflexivity|].
    destruct (performLocal (S n) db (Some f)) as [db'| |] eqn:E; [| |reflexivity].
    - exfalso. apply performLocal_Ok in E.
      destruct E as (ids1 & d & ids2 & _ & Ed & E2 & _).
      destruct (ancestor_bottom db f f C) as (d' & Ed' & Hd').
      rewrite Ed in Ed'. injection Ed' as <-.
      destruct Hd' as [Pd|(c & Pd & Hc)]; rewrite Pd in E2.
      + rewrite (ancestorCycle_diverges db (S n) f [] C) in E2. discriminate.
      + rewrite (ancestorCycle_diverges db (S n) c []) in E2; [discriminate|].
        eapply ancestor_trans; [exact Hc|]. eapply anc_parent; eassumption.
    - exfalso. apply performLocal_TypeError in E.
      destruct (ancestor_bottom db f f C) as (d' & Ed' & _). congruence. }
  split.
  - intros n db'. rewrite P. discriminate.
  - intros H n. unfold main. rewrite H, P. reflexivity.
Qed.

(** A file whose parent is the file itself: "cloud" returns on it, "local"
    does not. *)
Lemma ancestorCycle_never_returns_witness :
  let db := [ mkRow 0 1 "file" "a" "a" "/a" (Some "a") 0 ] in
  markContentsAs 2 db (Some "a") 1 = Ok (update 1 db 0) /\
  forall n, main n local db "/a" = mkOutcome [] db OutOfFuel.
Proof.
  intros db. split; [reflexivity|].
  apply (proj2 (ancestorCycle_never_returns db "a" "/a"
                  (anc_parent db "a" "a" (mkEntry 0 "file" "a" "a" "/a" (Some "a"))
                              eq_refl eq_refl))).
  reflexivity.
Defined.

(** ** Flags and reads, and how the operations compose *)

Section Compose.

Lemma main_stored_sameRows (fuel : nat) (act : action) (db : ledger) (path : string) :
  sameRows db (stored (main fuel act db path)).
Proof.
  unfold main. destruct (getIdForPath db path) as [baseId| |];
    try apply sameRows_refl.
  destruct act.
  - destruct (performLs db baseId); apply sameRows_refl.
  - destruct (performCloud fuel db baseId) as [db'| |] eqn:E;
      try apply sameRows_refl.
    apply (markContentsAs_sameRows _ _ _ _ _ E).
  - destruct (performLocal fuel db baseId) as [db'| |] eqn:E;
      try apply sameRows_refl.
    apply (performLocal_sameRows _ _ _ _ E).
Qed.

Lemma performLs_frame (db db' : ledger) (f : option string) :
  sameRows db db' -> performLs db' f = performLs db f.
Proof.
  intros H. unfold performLs. rewrite (getFolderContent_frame _ _ _ H).
  reflexivity.
Qed.

Lemma performLocal_eq (n : nat) (db : ledger) (f : option string) :
  performLocal n db f =
  (ids1 <- subtreeIds n db f ;;
   p <- subscript (getLatestForId db f) parentFolderId ;;
   ids2 <- ancestorLoop n db p [] ;;
   Ok (markRows 0 (ids1 ++ ids2) db)).
Proof.
  unfold performLocal. rewrite markContentsAs_subtreeIds.
  destruct (subtreeIds n db f) as [ids1| |]; cbn [bind]; try reflexivity.
  rewrite (getLatestForId_frame db _ f (sameRows_markRows 0 ids1 db)).
  destruct (getLatestForId db f) as [d|]; cbn [subscript bind]; [|reflexivity].
  rewrite (ancestorLoop_frame n db _ _ _ (sameRows_markRows 0 ids1 db)).
  destruct (ancestorLoop n db (parentFolderId d) []) as [ids2| |]; cbn [bind];
    try reflexivity.
  rewrite executemany_markRows, markRows_app. reflexivity.
Qed.

Lemma performLocal_frame_reads (n : nat) (db db' : ledger) (f : option string) :
  sameRows db db' ->
  performLocal n db' f =
  (ids1 <- subtreeIds n db f ;;
   p <- subscript (getLatestForId db f) parentFolderId ;;
   ids2 <- ancestorLoop n db p [] ;;
   Ok (markRows 0 (ids1 ++ ids2) db')).
Proof.
  intros H. rewrite performLocal_eq, (subtreeIds_frame n db db' f H).
  rewrite (getLatestForId_frame db db' f H).
  destruct (subtreeIds n db f); cbn [bind]; try reflexivity.
  destruct (subscript (getLatestForId db f) parentFolderId); cbn [bind];
    try reflexivity.
  rewrite (ancestorLoop_frame n db db' _ _ H). reflexivity.
Qed.

(** A batch overwrites an earlier batch on a part of its rows. *)
Lemma markRows_over (v w : Z) (ids ids' : list Z) (db : ledger) :
  incl ids ids' -> markRows w ids' (markRows v ids db) = markRows w ids' db.
Proof.
  intros I. unfold markRows. rewrite map_map. apply map_ext. intros r.
  destruct (existsb (Z.eqb (r_id r)) ids) eqn:X; [|reflexivity].
  cbn [setCloudOnly r_id].
  assert (Y : existsb (Z.eqb (r_id r)) ids' = true).
  { apply existsb_exists in X. destruct X as (x & Hx & E).
    apply existsb_exists. exists x. split; [apply I; assumption|assumption]. }
  rewrite Y. reflexivity.
Qed.

Lemma written_current (db : ledger) (v : Z) (ids : list Z) :
  uniqueIds db ->
  (forall x, In x ids -> exists e d, getLatestForId db e = Some d /\ id d = x) ->
  Forall2 (fun r r' =>
             getLatestForId db (Some (r_fileId r)) <> Some (rowToDict r) -> r' = r)
          db (markRows v ids db).
Proof.
  intros U H. unfold markRows. apply Forall2_map_same. intros r Hr Hnot.
  apply (markRows_row v ids r). intros Hin.
  destruct (H _ Hin) as (e & d & Ed & Hid).
  pose proof (uniqueIds_current db r e d U Hr Ed (eq_sym Hid)) as Hd.
  pose proof (getLatestForId_fileId _ _ _ Ed) as F.
  apply Hnot. rewrite Hd. replace (Some (r_fileId r)) with e; [exact Ed|].
  rewrite F, <- Hd. reflexivity.
Qed.

End Compose.

(** X9.  Row ids being unique, a row that is not the current row of its
    entity (a superseded event) is never written, neither by
    [markContentsAs] nor by [performLocal]. *)
Theorem superseded_rows_untouched (n : nat) (db db' : ledger)
        (f : option string) (v : Z) :
  uniqueIds db ->
  markContentsAs n db f v = Ok db' \/ performLocal n db f = Ok db' ->
  Forall2 (fun r r' =>
             getLatestForId db (Some (r_fileId r)) <> Some (rowToDict r) -> r' = r)
          db db'.
Proof.
  intros U [H|H].
  - apply markContentsAs_Ok in H. destruct H as (ids & E & ->).
    apply written_current; [assumption|]. intros x Hx.
    destruct f as [f|].
    + destruct (subtreeIds_reached db f n ids E x Hx) as (d & Ed & Hid & _).
      exists (Some (fileId d)), d. auto.
    + destruct (subtreeIds_base db n None ids E) as (d & Ed & _).
      rewrite getLatestForId_None in Ed. discriminate.
  - apply performLocal_Ok in H.
    destruct H as (ids1 & d & ids2 & E1 & Ed & E2 & ->).
    apply written_current; [assumption|]. intros x Hx.
    apply in_app_or in Hx. destruct Hx as [Hx|Hx].
    + destruct f as [f|]; [|rewrite getLatestForId_None in Ed; discriminate].
      destruct (subtreeIds_reached db f n ids1 E1 x Hx) as (d' & Ed' & Hid & _).
      exists (Some (fileId d')), d'. auto.
    + destruct (ancestorLoop_only db n _ _ E2 x Hx) as (a & da & Ea & Hid & _).
      exists (Some a), da. auto.
Qed.

(** The old row of the moved entity keeps its flag when the entity is
    marked. *)
Lemma superseded_rows_untouched_witness :
  Forall2 (fun r r' =>
             getLatestForId moved (Some (r_fileId r)) <> Some (rowToDict r) -> r' = r)
          moved (markRows 1 [2] moved).
Proof.
  apply (superseded_rows_untouched 1 moved _ (Some "e") 1).
  - unfold uniqueIds. simpl. repeat constructor; simpl; intuition discriminate.
  - left. reflexivity.
Defined.

(** X10.  No read of the script looks at the flag: after any run, with
    any outcome, every path resolves as before and "ls" prints on every
    path what it printed before. *)
Theorem runs_do_not_change_reads (fuel : nat) (act : action) (db : ledger)
        (path path' : string) (k : nat) :
  getIdForPath (stored (main fuel act db path)) path' = getIdForPath db path' /\
  stdout (main k ls (stored (main fuel act db path)) path')
  = stdout (main k ls db path') /\
  status (main k ls (stored (main fuel act db path)) path')
  = status (main k ls db path').
Proof.
  pose proof (main_stored_sameRows fuel act db path) as S.
  revert S. generalize (stored (main fuel act db path)). intros db' S.
  assert (G := getIdForPath_frame _ _ path' S).
  split; [exact G|]. unfold main. rewrite G.
  destruct (getIdForPath db path') as [baseId| |]; [|split; reflexivity..].
  rewrite (performLs_frame _ _ baseId S).
  destruct (performLs db baseId); split; reflexivity.
Qed.

(** X11.  "local" after "cloud" on the same folder is "local" alone:
    when [performCloud] returns, [performLocal] on its result gives what
    [performLocal] gives on the ledger before; and [performLocal] on its
    own result returns that result again. *)
Theorem performLocal_absorbs (n : nat) (db db1 : ledger) (f : option string) :
  (performCloud n db f = Ok db1 -> performLocal n db1 f = performLocal n db f) /\
  (performLocal n db f = Ok db1 -> performLocal n db1 f = Ok db1).
Proof.
  split.
  - intros H. apply markContentsAs_Ok in H. destruct H as (ids & E & ->).
    rewrite (performLocal_frame_reads n db _ f (sameRows_markRows 1 ids db)).
    rewrite performLocal_eq, E. cbn [bind].
    destruct (subscript (getLatestForId db f) parentFolderId); cbn [bind];
      try reflexivity.
    destruct (ancestorLoop n db a []) as [ids2| |]; cbn [bind]; try reflexivity.
    rewrite markRows_over; [reflexivity|]. apply incl_appl, incl_refl.
  - intros H. pose proof (performLocal_sameRows _ _ _ _ H) as S.
    rewrite (performLocal_frame_reads n db db1 f S).
    rewrite performLocal_eq in H.
    destruct (subtreeIds n db f) as [ids1| |]; cbn [bind] in *; try discriminate.
    destruct (subscript (getLatestForId db f) parentFolderId); cbn [bind] in *;
      try discriminate.
    destruct (ancestorLoop n db a []) as [ids2| |]; cbn [bind] in *;
      try discriminate.
    injection H as <-. rewrite markRows_idem. reflexivity.
Qed.

Lemma performLocal_absorbs_witness :
  performLocal 3 (markRows 1 [3; 1; 2] scenario) (Some "1")
  = performLocal 3 scenario (Some "1").
Proof.
  apply (proj1 (performLocal_absorbs 3 scenario _ (Some "1"))). reflexivity.
Defined.

Section AfterLocal.

Lemma markRows_In (v : Z) (ids : list Z) (db : ledger) (r' : row) :
  In r' (markRows v ids db) ->
  exists r, In r db /\ r_id r' = r_id r /\
            (In (r_id r) ids -> r' = setCloudOnly v r) /\
            (~ In (r_id r) ids -> r' = r).
Proof.
  unfold markRows. intros H. apply in_map_iff in H. destruct H as (r & <- & Hr).
  exists r. split; [assumption|].
  destruct (markRows_row v ids r) as (Y & N). split; [|split].
  - destruct (existsb (Z.eqb (r_id r)) ids); reflexivity.
  - exact Y.
  - exact N.
Qed.

Lemma ancestor_not_reached (db : ledger) (f a : string) (da : entry) :
  wellFormed db -> ancestor db f a ->
  getLatestForId db (Some a) = Some da -> ~ reached db f (id da).
Proof.
  intros (U & rank & R) Ha Ea Hr.
  pose proof (getLatestForId_fileId _ _ _ Ea) as F. injection F as F.
  rewrite F in Ea.
  pose proof (acyclic_ancestor db rank R _ _ Ha) as Rfa.
  assert (S : inSubtree db f (fileId da)).
  { destruct (reached_entry db f da U Ea Hr) as [V|(g & V & Hc & _)].
    - apply visited_inSubtree. assumption.
    - eapply child_inSubtree; [|eassumption]. apply visited_inSubtree. assumption. }
  rewrite <- F in S. destruct S as [->|S]; [lia|].
  pose proof (acyclic_ancestor db rank R _ _ S). lia.
Qed.

End AfterLocal.

(** X12.  On a well-formed ledger "cloud" after "local" on the same folder
    returns, and leaves 1 on the rows of the subtree and 0 on the current
    row of every ancestor: it does not undo what "local" did above the
    folder. *)
Theorem cloud_after_local (n : nat) (db db1 : ledger) (f : string) :
  wellFormed db -> performLocal n db (Some f) = Ok db1 ->
  exists db2,
    performCloud n db1 (Some f) = Ok db2 /\
    (forall a r2, ancestor db f a -> currentRow db2 a r2 -> r_cloudOnly r2 = 0) /\
    (forall r2, In r2 db2 -> reached db f (r_id r2) -> r_cloudOnly r2 = 1).
Proof.
  intros W H. apply performLocal_Ok in H.
  destruct H as (ids1 & d & ids2 & E1 & Ed & E2 & ->).
  pose proof (sameRows_markRows 0 (ids1 ++ ids2) db) as S1.
  exists (markRows 1 ids1 (markRows 0 (ids1 ++ ids2) db)). split; [|split].
  - apply markContentsAs_Ok. exists ids1. split; [|reflexivity].
    rewrite (subtreeIds_frame n db _ _ S1). assumption.
  - intros a r2 Ha (Hr2 & Er2).
    rewrite (getLatestForId_frame _ _ _ (sameRows_markRows 1 ids1 _)) in Er2.
    rewrite (getLatestForId_frame _ _ _ S1) in Er2.
    destruct (markRows_In _ _ _ _ Hr2) as (r1 & Hr1 & I21 & _ & N2).
    destruct (markRows_In _ _ _ _ Hr1) as (r & Hr & I10 & Y1 & _).
    assert (Hin2 : In (r_id r) ids2).
    { rewrite <- I10, <- I21.
      apply (proj2 (ancestorLoop_exact db f n d ids2 Ed E2 (r_id r2))).
      exists a, (rowToDict r2). auto. }
    assert (Hn1 : ~ In (r_id r1) ids1).
    { intros Hin. rewrite <- I21 in Hin.
      apply (ancestor_not_reached db f a (rowToDict r2) W Ha Er2).
      apply (subtreeIds_reached db f n ids1 E1). exact Hin. }
    rewrite (N2 Hn1), (Y1 (in_or_app _ _ _ (or_intror Hin2))). reflexivity.
  - intros r2 Hr2 R.
    destruct (markRows_In _ _ _ _ Hr2) as (r1 & Hr1 & I21 & Y2 & _).
    rewrite Y2; [reflexivity|]. rewrite <- I21.
    apply (reached_collected db f n ids1 _ E1 R).
Qed.

Lemma cloud_after_local_witness :
  exists db2,
    performCloud 3 (map (setCloudOnly 0) scenario) (Some "1") = Ok db2 /\
    (forall r2, currentRow db2 "R" r2 -> r_cloudOnly r2 = 0).
Proof.
  destruct (cloud_after_local 3 scenario (map (setCloudOnly 0) scenario) "1"
              scenario_wellFormed eq_refl) as (db2 & E & Hanc & _).
  exists db2. split; [exact E|]. intros r2. apply Hanc.
  apply (anc_parent scenario "1" "R"
           (mkEntry 1 "folder" "1" "A" "/drive/A" (Some "R"))); reflexivity.
Defined.

(** ** The order of the rows in the table *)

Section Order.

Lemma getLatestForId_max (db : ledger) (fo : option string) (d : entry) :
  getLatestForId db fo = Some d ->
  exists r, In r db /\ d = rowToDict r /\ fo = Some (r_fileId r) /\
            forall x, In x db -> fo = Some (r_fileId x) ->
                      r_unixTime x <= r_unixTime r.
Proof.
  intros E.
  destruct (getLatestForId_Some _ _ _ E) as (pre & r & post & -> & -> & F & Hpre & Hpost).
  exists r. split; [apply in_or_app; right; left; reflexivity|].
  split; [reflexivity|]. split; [assumption|].
  intros x Hx Fx. apply in_app_or in Hx. destruct Hx as [Hx|[<-|Hx]].
  - pose proof (Hpre x Hx Fx). lia.
  - lia.
  - apply Hpost; assumption.
Qed.

Lemma getLatestForId_perm (db db' : ledger) (fo : option string) :
  Permutation db db' -> distinctTimes db ->
  getLatestForId db' fo = getLatestForId db fo.
Proof.
  intros P D.
  destruct (getLatestForId db fo) as [d|] eqn:E,
           (getLatestForId db' fo) as [d'|] eqn:E'; try reflexivity.
  - destruct (getLatestForId_max _ _ _ E) as (r & Hr & -> & F & M).
    destruct (getLatestForId_max _ _ _ E') as (r' & Hr' & -> & F' & M').
    assert (Hr'db : In r' db) by (apply (Permutation_in _ (Permutation_sym P) Hr')).
    assert (Hrdb' : In r db') by (apply (Permutation_in _ P Hr)).
    pose proof (M r' Hr'db F'). pose proof (M' r Hrdb' F).
    rewrite (D r r' Hr Hr'db); [reflexivity|congruence|lia].
  - exfalso. destruct (getLatestForId_max _ _ _ E) as (r & Hr & _ & F & _).
    rewrite F in E'.
    apply (proj1 (getLatestForId_is_None _ _) E' r (Permutation_in _ P Hr)).
    reflexivity.
  - exfalso. destruct (getLatestForId_max _ _ _ E') as (r & Hr & _ & F & _).
    rewrite F in E.
    apply (proj1 (getLatestForId_is_None _ _) E r
                 (Permutation_in _ (Permutation_sym P) Hr)).
    reflexivity.
Qed.

Lemma liveChildren_perm (db db' : ledger) (fo : option string) :
  Permutation db db' -> distinctTimes db ->
  Permutation (liveChildren db' fo) (liveChildren db fo).
Proof.
  intros P D. apply NoDup_Permutation.
  - apply (NoDup_map_inv fileId). apply liveChildren_NoDup.
  - apply (NoDup_map_inv fileId). apply liveChildren_NoDup.
  - intros d. rewrite !liveChildren_In, (getLatestForId_perm db db' _ P D).
    tauto.
Qed.

Lemma filter_perm {A : Type} (p : A -> bool) (l l' : list A) :
  Permutation l l' -> Permutation (filter p l) (filter p l').
Proof.
  induction 1 as [|x l l' _ IH|x y l|l l' l'' _ IH1 _ IH2]; simpl.
  - constructor.
  - destruct (p x); [constructor|]; assumption.
  - destruct (p x), (p y); try reflexivity. apply perm_swap.
  - etransitivity; eassumption.
Qed.

Lemma sortedNames_perm_eq (l l' : list string) :
  sortedNames l -> sortedNames l' -> Permutation l l' -> l = l'.
Proof.
  unfold sortedNames. intros Sl. revert l'.
  induction Sl as [|a l Sl IH Ha]; intros l' Sl' P.
  - apply Permutation_nil in P. congruence.
  - destruct Sl' as [|b l' Sl' Hb].
    + apply Permutation_sym, Permutation_nil in P. discriminate.
    + rewrite Forall_forall in Ha, Hb.
      assert (E : a = b).
      { assert (Ia : In a (b :: l')) by (apply (Permutation_in _ P); left; reflexivity).
        assert (Ib : In b (a :: l))
          by (apply (Permutation_in _ (Permutation_sym P)); left; reflexivity).
        destruct Ia as [Ia|Ia]; [congruence|].
        destruct Ib as [Ib|Ib]; [congruence|].
        apply String.leb_antisym; [apply Ha|apply Hb]; assumption. }
      subst b. f_equal. apply IH; [assumption|].
      apply (Permutation_cons_inv P).
Qed.

Lemma sort_perm_eq (l l' : list string) : Permutation l l' -> sort l = sort l'.
Proof.
  intros P. apply sortedNames_perm_eq; try apply sort_sorted.
  rewrite !sort_perm. assumption.
Qed.

Lemma lsLines_perm (c c' : list entry) : Permutation c c' -> lsLines c = lsLines c'.
Proof.
  intros P. unfold lsLines.
  rewrite (sort_perm_eq _ _ (Permutation_map fileName (filter_perm isFolder _ _ P))).
  rewrite (sort_perm_eq _ _ (Permutation_map fileName (filter_perm isFile _ _ P))).
  reflexivity.
Qed.

End Order.

(** X13.  When no two rows of an entity carry the same time, the order
    of the rows in the table does not matter: on a table with the same rows
    in another order [getLatestForId] returns the same entry,
    [getFolderContent] the same entries up to their order, and [performLs]
    prints the same lines. *)
Theorem row_order_irrelevant (db db' : ledger) (f : option string) :
  Permutation db db' -> distinctTimes db ->
  getLatestForId db' f = getLatestForId db f /\
  (exists content content',
     getFolderContent db f = Ok content /\
     getFolderContent db' f = Ok content' /\ Permutation content' content) /\
  performLs db' f = performLs db f.
Proof.
  intros P D. split; [apply getLatestForId_perm; assumption|]. split.
  - exists (liveChildren db f), (liveChildren db' f).
    rewrite !getFolderContent_live. repeat split.
    apply liveChildren_perm; assumption.
  - rewrite !performLs_lines. f_equal. apply lsLines_perm.
    apply liveChildren_perm; assumption.
Qed.

Lemma row_order_irrelevant_witness :
  performLs (rev scenario) (Some "1") = performLs scenario (Some "1").
Proof.
  apply (row_order_irrelevant scenario (rev scenario) (Some "1")).
  - apply Permutation_rev.
  - intros r r' Hr Hr' _ T. simpl in Hr, Hr'.
    destruct Hr as [<-|[<-|[<-|[<-|[]]]]];
      destruct Hr' as [<-|[<-|[<-|[<-|[]]]]];
      try reflexivity; discriminate.
Defined.

(** ** Where the search for the database file stops *)

Section Root.

Lemma allSep_uptoLastSep (p : string) : allSep p = true -> uptoLastSep p = p.
Proof.
  induction p as [|c p IH]; simpl; [reflexivity|].
  intros H. apply andb_prop in H. destruct H as [Hc Hp].
  rewrite Hc. destruct p as [|c' p']; [reflexivity|].
  simpl in Hp. apply andb_prop in Hp. destruct Hp as [Hc' Hp'].
  simpl hasSep. rewrite Hc'. simpl orb. cbv iota.
  rewrite IH; [reflexivity|]. simpl. rewrite Hc', Hp'. reflexivity.
Qed.

Lemma uptoLastSep_fixed (p : string) :
  uptoLastSep p = p -> p = "" \/ endsWithSep p = true.
Proof.
  induction p as [|c p IH]; simpl; [auto|]. intros E. right.
  destruct (hasSep p) eqn:Hs.
  - injection E as E. destruct (IH E) as [->|Hp]; [discriminate|].
    destruct p; [discriminate|assumption].
  - destruct (isSep c) eqn:Hc; [|discriminate].
    injection E as <-. reflexivity.
Qed.

Lemma rstripSep_fixed (s : string) : rstripSep s = s -> endsWithSep s = false.
Proof.
  induction s as [|c s IH]; simpl; [reflexivity|].
  destruct (rstripSep s) as [|c' t] eqn:E.
  - destruct (isSep c) eqn:Hc; [discriminate|].
    intros H. injection H as <-. reflexivity.
  - intros H. injection H as Hs.
    destruct s as [|a s']; [discriminate|]. apply IH. exact Hs.
Qed.

Lemma dirname_fixed (p : string) : dirname p = p <-> allSep p = true.
Proof.
  split.
  - intros H.
    destruct (uptoLastSep_length p) as [U1 U2].
    destruct (rstripSep_length (uptoLastSep p)) as [R1 R2].
    unfold dirname in H.
    destruct (negb (String.eqb (uptoLastSep p) "") && negb (allSep (uptoLastSep p)))
      eqn:C.
    + exfalso.
      assert (L : String.length (rstripSep (uptoLastSep p)) = String.length p)
        by (rewrite H; reflexivity).
      assert (Eu : uptoLastSep p = p) by (apply U2; lia).
      rewrite Eu in *. apply rstripSep_fixed in H.
      destruct (uptoLastSep_fixed p Eu) as [->|Hp]; [discriminate|congruence].
    + rewrite H in C. apply Bool.andb_false_iff in C. destruct C as [C|C].
      * apply Bool.negb_false_iff, String.eqb_eq in C. rewrite C. reflexivity.
      * apply Bool.negb_false_iff in C. exact C.
  - intros H. unfold dirname. rewrite (allSep_uptoLastSep p H), H.
    rewrite Bool.andb_false_r. reflexivity.
Qed.

End Root.

(** X14.  The search for the database file gives up only at the root: when
    it returns [None] it has tried, last, a path that is empty or made of
    slashes only, which [os.path.dirname] maps to itself. *)
Theorem getDbFile_reaches_root (ex : string -> bool) (n : nat) (path : string) :
  getDbFile n ex path = Ok None ->
  exists k, allSep (Nat.iter k dirname path) = true /\
            ex (join (Nat.iter k dirname path) DB_FILE) = false.
Proof.
  revert path. induction n as [|n IH]; intros path; [discriminate|].
  rewrite getDbFile_S. destruct (ex (join path DB_FILE)) eqn:X; [discriminate|].
  destruct (String.eqb (dirname path) path) eqn:E.
  - intros _. apply String.eqb_eq, dirname_fixed in E. exists 0%nat. auto.
  - intros H. destruct (IH _ H) as (k & Hk & Hx). exists (S k).
    rewrite Nat.iter_succ_r. auto.
Qed.

Lemma getDbFile_reaches_root_witness :
  exists k, allSep (Nat.iter k dirname "/other/A") = true /\
            driveOnly (join (Nat.iter k dirname "/other/A") DB_FILE) = false.
Proof.
  apply (getDbFile_reaches_root driveOnly 4 "/other/A"). reflexivity.
Defined.

(** X15.  A call of [performLocal] that returns has written 0 on exactly
    the rows that [markContentsAs] writes and on the rows whose id is the id
    of the current row of an ancestor of the folder; every other row is as
    before. *)
Theorem performLocal_writes (n : nat) (db db' : ledger) (f : string) :
  performLocal n db (Some f) = Ok db' ->
  Forall2 (fun r r' =>
             let written :=
               reached db f (r_id r) \/
               exists a da, ancestor db f a /\
                            getLatestForId db (Some a) = Some da /\
                            id da = r_id r in
             (written -> r' = setCloudOnly 0 r) /\ (~ written -> r' = r))
          db db'.
Proof.
  intros H. apply performLocal_Ok in H.
  destruct H as (ids1 & d & ids2 & E1 & Ed & E2 & ->).
  unfold markRows. apply Forall2_map_same. intros r _.
  assert (W : In (r_id r) (ids1 ++ ids2) <->
              (reached db f (r_id r) \/
               exists a da, ancestor db f a /\
                            getLatestForId db (Some a) = Some da /\
                            id da = r_id r)).
  { rewrite in_app_iff, (ancestorLoop_exact db f n d ids2 Ed E2). split.
    - intros [H|H]; [left|right; assumption].
      apply (subtreeIds_reached db f n ids1 E1 _ H).
    - intros [H|H]; [left|right; assumption].
      apply (reached_collected db f n ids1 _ E1 H). }
  cbv zeta. split.
  - intros Hw. apply (markRows_row 0 (ids1 ++ ids2) r). apply W. assumption.
  - intros Hw. apply (markRows_row 0 (ids1 ++ ids2) r). intros Hin.
    apply Hw, W, Hin.
Qed.

Lemma performLocal_writes_witness :
  Forall2 (fun r r' =>
             let written :=
               reached scenario "1" (r_id r) \/
               exists a da, ancestor scenario "1" a /\
                            getLatestForId scenario (Some a) = Some da /\
                            id da = r_id r in
             (written -> r' = setCloudOnly 0 r) /\ (~ written -> r' = r))
          scenario (map (setCloudOnly 0) scenario).
Proof.
  apply (performLocal_writes 3 scenario _ "1"). reflexivity.
Defined.

(** X16.  A batch of updates is applied as a set of ids: two batches with
    the same ids, in any order and with any repetitions, give the same
    ledger, and a batch none of whose ids is the id of a row changes
    nothing. *)
Theorem executemany_set (v : Z) (db : ledger) (ids ids' : list Z) :
  ((forall x, In x ids <-> In x ids') ->
   executemany v db ids = executemany v db ids') /\
  ((forall r, In r db -> ~ In (r_id r) ids) -> executemany v db ids = db).
Proof.
  rewrite !executemany_markRows. split.
  - apply markRows_same_members.
  - intros H. unfold markRows. rewrite <- (map_id db) at 2.
    apply map_ext_in. intros r Hr. apply (markRows_row v ids r). apply H, Hr.
Qed.

Lemma executemany_set_witness :
  executemany 1 scenario [2; 3; 2] = executemany 1 scenario [3; 2] /\
  executemany 1 scenario [7; 8] = scenario.
Proof.
  split.
  - apply (proj1 (executemany_set 1 scenario [2; 3; 2] [3; 2])).
    intros x. simpl. tauto.
  - apply (proj2 (executemany_set 1 scenario [7; 8] [])).
    intros r Hr. simpl in Hr.
    destruct Hr as [<-|[<-|[<-|[<-|[]]]]]; simpl; intuition discriminate.
Defined.
